(** * DmInstaller: placement, ledger and generated artifacts

    A shallow embedding of [packages/plugin-dm/sources/DmInstaller.ts]:
    the installer that vendors "hard" packages below the project, keeps a
    ledger of where every package ended up, and writes the path map and
    the aggregated include file.

    Strings are [string]; portable paths are strings handled with the
    POSIX path arithmetic of [ppath]; the disk is a tree of directories
    (finite maps from names to nodes) and files; the ledger is an
    insertion-ordered association list, as a JavaScript [Map] is; the
    methods run in a small state-and-exception monad over the installer
    object and the disk. *)

From Stdlib Require Import Ascii Sorted.
From stdpp Require Import gmap strings list fin_maps.

Set Default Proof Using "Type*".

(** ** Characters and text *)

Definition slash : ascii := "/"%char.
Definition SEP : string := "/".
Definition nl : string := String "010"%char EmptyString.
Definition dq : string := String "034"%char EmptyString.

(** The pieces of a text, one after the other. *)
Definition concat_text (pieces : list string) : string :=
  foldr String.append EmptyString pieces.

(** [PortablePath] and [Filename] are strings. *)
Abbreviation PortablePath := string (only parsing).
Abbreviation Filename := string (only parsing).

(** ** ppath: POSIX path arithmetic

    [ppath] belongs to the file-system library, which is not among the
    sources. The spec asks of it "pure path arithmetic", the "resolved
    absolute path" and "POSIX-style relative path strings"; the functions
    below read a path as its [/]-separated segments, the way the POSIX
    flavour of the platform's path module does. *)

Definition isAbsolute (p : PortablePath) : bool :=
  match p with
  | String c _ => bool_decide (c = slash)
  | EmptyString => false
  end.

(** [split_sep s] is [s.split('/')]: never empty, [k] slashes give [k+1]
    pieces. *)
Fixpoint split_sep (s : string) : list string :=
  match s with
  | EmptyString => [EmptyString]
  | String c s' =>
      if bool_decide (c = slash) then EmptyString :: split_sep s'
      else match split_sep s' with
           | seg :: rest => String c seg :: rest
           | [] => [String c EmptyString]
           end
  end.

(** [join_sep l] is [l.join('/')]. *)
Fixpoint join_sep (l : list string) : string :=
  match l with
  | [] => EmptyString
  | [x] => x
  | x :: rest => x +:+ SEP +:+ join_sep rest
  end.

(** One segment of the normalisation loop; [res] is the stack of segments
    kept so far, innermost first. Empty segments and [.] are dropped, [..]
    pops a segment, or is kept when nothing can be popped and the path may
    climb above its start. *)
Definition normalizeStep (allowAboveRoot : bool) (res : list string) (seg : string)
  : list string :=
  if bool_decide (seg = EmptyString) then res
  else if bool_decide (seg = ".") then res
  else if bool_decide (seg = "..") then
    match res with
    | top :: rest =>
        if bool_decide (top = "..")
        then (if allowAboveRoot then ".." :: res else res)
        else rest
    | [] => if allowAboveRoot then [".."] else []
    end
  else seg :: res.

Definition normalizeSegments (allowAboveRoot : bool) (segs : list string) : list string :=
  rev (foldl (normalizeStep allowAboveRoot) [] segs).

Definition normalizeString (path : string) (allowAboveRoot : bool) : string :=
  join_sep (normalizeSegments allowAboveRoot (split_sep path)).

(** The right-to-left loop of [resolve]: prepend arguments until one of
    them is absolute; empty arguments are skipped. Returns the
    concatenation and whether it is absolute. *)
Fixpoint resolveLoop (pathsRev : list string) (resolvedPath : string) : string * bool :=
  match pathsRev with
  | [] => (resolvedPath, false)
  | path :: more =>
      if bool_decide (path = EmptyString) then resolveLoop more resolvedPath
      else
        let resolvedPath := path +:+ SEP +:+ resolvedPath in
        if isAbsolute path then (resolvedPath, true)
        else resolveLoop more resolvedPath
  end.

(** A path whose last segment is the name [v]. *)
Definition ends_in (v : string) (p : string) : Prop :=
  p = v \/ exists before, p = before +:+ SEP +:+ v.

Definition ends_with_sep (p : string) : bool :=
  match rev (String.list_ascii_of_string p) with
  | c :: _ => bool_decide (c = slash)
  | [] => false
  end.

Fixpoint skip_while (f : ascii -> bool) (l : list ascii) : list ascii :=
  match l with
  | [] => []
  | c :: l' => if f c then skip_while f l' else l
  end.

Definition is_sep (c : ascii) : bool := bool_decide (c = slash).

Fixpoint has_sep (s : string) : bool :=
  match s with
  | EmptyString => false
  | String c s' => bool_decide (c = slash) || has_sep s'
  end.

(** A name: one segment that names an entry of a directory. *)
Definition is_name (seg : string) : bool :=
  negb (has_sep seg) && bool_decide (seg <> EmptyString)
  && bool_decide (seg <> ".") && bool_decide (seg <> "..").

(** A resolved path: absolute, names only, no slash at its end. *)
Definition is_resolved (p : PortablePath) : Prop :=
  exists segs, Forall (fun s => is_name s = true) segs /\ p = SEP +:+ join_sep segs.

Module ppath.

(** Modelled from the spec: [ppath.normalize], missing with the file-system
    library; POSIX normalisation, which keeps a slash at the end. *)
Definition normalize (path : PortablePath) : PortablePath :=
  if bool_decide (path = EmptyString) then "."
  else
    let isAbs := isAbsolute path in
    let trailingSeparator := ends_with_sep path in
    let path := normalizeString path (negb isAbs) in
    if bool_decide (path = EmptyString) then
      (if isAbs then "/" else if trailingSeparator then "./" else ".")
    else
      let path := if trailingSeparator then path +:+ SEP else path in
      if isAbs then SEP +:+ path else path.

(** Modelled from the spec: [ppath.join], missing with the file-system
    library; the non-empty arguments, joined by [/], normalised. *)
Definition join (args : list PortablePath) : PortablePath :=
  match filter (fun arg => arg <> EmptyString) args with
  | [] => "."
  | joined => normalize (join_sep joined)
  end.

(** Modelled from the spec: [ppath.dirname], missing with the file-system
    library; the path up to the right-most [/] (not the leading one) that
    is followed by a character other than [/]. *)
Definition dirname (path : PortablePath) : PortablePath :=
  match String.list_ascii_of_string path with
  | [] => "."
  | c0 :: tl =>
      let hasRoot := is_sep c0 in
      let afterName := skip_while (fun c => negb (is_sep c)) (skip_while is_sep (rev tl)) in
      match afterName with
      | [] => if hasRoot then "/" else "."
      | _ :: _ =>
          let end_ := length afterName in
          if hasRoot && bool_decide (end_ = 1) then "//"
          else String.substring 0 end_ path
      end
  end.

Section WithCwd.

(** [process.cwd()], the working directory of the process. *)
Variable cwd : PortablePath.

(** Modelled from the spec: the platform's POSIX [resolve], which
    [ppath.resolve] calls: the "resolved absolute path" of the arguments,
    read from the right until one is absolute, the working directory last. *)
Definition posix_resolve (args : list PortablePath) : PortablePath :=
  let '(resolvedPath, resolvedAbsolute) := resolveLoop (rev args ++ [cwd]) EmptyString in
  let resolvedPath := normalizeString resolvedPath (negb resolvedAbsolute) in
  if resolvedAbsolute then SEP +:+ resolvedPath
  else if bool_decide (resolvedPath = EmptyString) then "." else resolvedPath.

(** The stack of segments [posix.resolve] is left with, innermost first. *)
Definition resolve_stack (args : list PortablePath) : list string :=
  foldl (normalizeStep false) []
        (split_sep (resolveLoop (rev args ++ [cwd]) EmptyString).1).

(** Modelled from the spec: [ppath.resolve], missing with the file-system
    library; [posix_resolve], with the working directory put in front
    unless the first segment is absolute. *)
Definition resolve (segments : list PortablePath) : PortablePath :=
  match segments with
  | first :: _ =>
      if isAbsolute first then posix_resolve segments
      else posix_resolve (cwd :: segments)
  | [] => posix_resolve (cwd :: segments)
  end.

(** The segments of a resolved path: what is between its slashes. *)
Definition segments_of (resolved : PortablePath) : list string :=
  filter (fun seg => seg <> EmptyString) (split_sep resolved).

Fixpoint common_prefix (a b : list string) : nat :=
  match a, b with
  | x :: a', y :: b' => if bool_decide (x = y) then S (common_prefix a' b') else 0
  | _, _ => 0
  end.

(** Modelled from the spec: [ppath.relative], missing with the file-system
    library; the "POSIX-style relative path" from [from] to [to]: both
    resolved, one [..] for every segment of [from] below the common
    directory, then the rest of [to]. *)
Definition relative (from to : PortablePath) : PortablePath :=
  if bool_decide (from = to) then EmptyString
  else
    let from := segments_of (posix_resolve [from]) in
    let to := segments_of (posix_resolve [to]) in
    let k := common_prefix from to in
    join_sep (replicate (length from - k) ".." ++ drop k to).

End WithCwd.

End ppath.

(** ** The disk

    [xfs] and the content file systems come from the file-system library,
    which is not among the sources. *)

(** Modelled from the spec: what a file system holds. A file system is a
    tree: a directory maps names to nodes, a file holds its bytes. Symbolic
    links, modes and times are left out. *)
#[warnings="-register-all"]
Inductive fsnode :=
| File (content : string)
| Dir (entries : gmap string fsnode).

Inductive errno := ENOENT | EEXIST | ENOTDIR | EISDIR.

Inductive result (A : Type) :=
| Ok (a : A)
| Fail (code : errno).
Arguments Ok {A} a.
Arguments Fail {A} code.

Fixpoint lookup_path (p : list string) (n : fsnode) : option fsnode :=
  match p with
  | [] => Some n
  | name :: p' =>
      match n with
      | Dir entries => entries !! name ≫= lookup_path p'
      | File _ => None
      end
  end.

Fixpoint node_size (n : fsnode) : nat :=
  match n with
  | File _ => 1
  | Dir entries => S (map_fold (fun _ child acc => node_size child + acc) 0 entries)
  end.

(** What [lstat] tells of a path: a file with its bytes, or a directory. *)
Inductive entry_kind :=
| IsFile (content : string)
| IsDir.

Definition stat (q : list string) (n : fsnode) : option entry_kind :=
  match lookup_path q n with
  | Some (File content) => Some (IsFile content)
  | Some (Dir _) => Some IsDir
  | None => None
  end.

(** [place p f n]: walk down [p] from [n], creating the directories that
    are missing on the way, and put [f] of what is found at [p] there. A
    file met on the way is [ENOTDIR]. *)
Fixpoint place (p : list string) (f : option fsnode -> result fsnode) (n : option fsnode)
  : result fsnode :=
  match p with
  | [] => f n
  | name :: p' =>
      match n with
      | Some (File _) => Fail ENOTDIR
      | Some (Dir entries) =>
          match place p' f (entries !! name) with
          | Ok child => Ok (Dir (<[name := child]> entries))
          | Fail code => Fail code
          end
      | None =>
          match place p' f None with
          | Ok child => Ok (Dir {[name := child]})
          | Fail code => Fail code
          end
      end
  end.

(** Modelled from the spec: "idempotent directory creation". What [mkdir]
    with [recursive: true] leaves at its path: a directory that is there
    stays as it is, a file in its place is [EEXIST]. *)
Definition ensure_dir (found : option fsnode) : result fsnode :=
  match found with
  | None => Ok (Dir ∅)
  | Some (Dir entries) => Ok (Dir entries)
  | Some (File _) => Fail EEXIST
  end.

(** [f] leaves the files it finds as they are. *)
Definition keeps_files (f : option fsnode -> result fsnode) : Prop :=
  forall found x q content,
    f found = Ok x ->
    found ≫= lookup_path q = Some (File content) ->
    lookup_path q x = Some (File content).

Definition fs_mkdirp (p : list string) (root : fsnode) : result fsnode :=
  place p ensure_dir (Some root).

(** Modelled from the spec: the copy of [xfs.copyPromise] with
    [overwrite: false], missing with the file-system library: "copy all
    content ...; the copy must NOT overwrite pre-existing files at the
    destination". A source file is written only where nothing is, a source
    directory is created where nothing is and merged into a directory that
    is there; whatever else is found at the destination is kept, and what
    is below it in the source is skipped. *)
Fixpoint copy_node (source : fsnode) (destination : option fsnode) : fsnode :=
  match source with
  | File content =>
      match destination with
      | Some existing => existing
      | None => File content
      end
  | Dir entries =>
      match destination with
      | Some (File existing) => File existing
      | Some (Dir present) =>
          Dir (merge (fun src dst =>
                        match src with
                        | Some child => Some (copy_node child dst)
                        | None => dst
                        end) entries present)
      | None => Dir ((fun child => copy_node child None) <$> entries)
      end
  end.

Definition fs_copy (p : list string) (source : fsnode) (root : fsnode) : result fsnode :=
  place p (fun found => Ok (copy_node source found)) (Some root).

(** Modelled from the spec: [xfs.writeFilePromise], missing with the
    file-system library. Creates or replaces the file; the directory
    holding it must exist ([ENOENT]), and a directory cannot be written
    ([EISDIR]). *)
Fixpoint fs_write (p : list string) (content : string) (n : fsnode) : result fsnode :=
  match n with
  | File _ => Fail ENOTDIR
  | Dir entries =>
      match p with
      | [] => Fail EISDIR
      | [name] =>
          match entries !! name with
          | Some (Dir _) => Fail EISDIR
          | _ => Ok (Dir (<[name := File content]> entries))
          end
      | name :: p' =>
          match entries !! name with
          | Some child =>
              match fs_write p' content child with
              | Ok child' => Ok (Dir (<[name := child']> entries))
              | Fail code => Fail code
              end
          | None => Fail ENOENT
          end
      end
  end.

(** Modelled from the spec: [xfs.removeSync] with [recursive: true],
    missing with the file-system library: "recursively remove the entire
    ... directory tree (if present)". The node at [p] goes with all below
    it; nothing happens when there is no such node. The root itself cannot
    go. *)
Fixpoint fs_remove (p : list string) (n : fsnode) : fsnode :=
  match p, n with
  | [name], Dir entries => Dir (delete name entries)
  | name :: p', Dir entries =>
      match entries !! name with
      | Some child => Dir (<[name := fs_remove p' child]> entries)
      | None => n
      end
  | _, _ => n
  end.

(** The segments a path names on a file system whose relative paths start
    at [base]. *)
Definition path_segments (base p : PortablePath) : list string :=
  normalizeSegments false
    (split_sep (if isAbsolute p then p else base +:+ SEP +:+ p)).

(** Modelled from the spec: the "content filesystem handle" of a fetch
    result: where it really is, and what it holds. Its paths start at its
    own root. *)
Record FakeFS := {
  getRealPath : PortablePath;
  contents : fsnode;
}.

(** ** The host's types

    The declarations of the core library are not among the sources; only
    what the installer reads is kept. *)

(** Modelled from the spec: the "declared link-type enum {hard, soft}". *)
Inductive LinkType := HARD | SOFT.

Global Instance LinkType_eq_dec : EqDecision LinkType.
Proof. solve_decision. Defined.

(** Modelled from the spec: a locator, with its "package identity", the
    [locatorHash]. *)
Record Locator := {
  name : string;
  reference : string;
  locatorHash : string;
}.

(** Modelled from the spec: "a resolved package descriptor (identity,
    declared link type ...)". *)
Record Package := {
  locator :> Locator;
  linkType : LinkType;
}.

Record Workspace := {
  workspaceCwd : PortablePath;
}.

Record Configuration := {
  dmLinker : bool;
}.

(** Modelled from the spec: the project: its root, the "single boolean
    feature switch" of its configuration, and the "workspace-membership
    predicate". *)
Record Project := {
  cwd : PortablePath;
  configuration : Configuration;
  tryWorkspaceByLocator : Locator -> option Workspace;
}.

Record LinkOptions := {
  project : Project;
}.

(** Modelled from the spec: fetched content, "(content-filesystem-handle,
    relative-prefix-path)". *)
Record FetchResult := {
  packageFs : FakeFS;
  prefixPath : PortablePath;
}.

Inductive BuildType := SCRIPT | SHELLCODE.
Definition BuildDirective : Type := BuildType * string.

Record InstallPackageResult := {
  installedLocation : PortablePath;
  buildDirective : option BuildDirective;
}.

(** [FinalizeInstallData]: an object, given by its properties. *)
Definition FinalizeInstallData : Type := list (string * string).

(** [Boolean(x)] of an object or [null]. *)
Definition Boolean {A : Type} (x : option A) : bool :=
  match x with
  | Some _ => true
  | None => false
  end.

(** ** JavaScript [Map]: insertion-ordered, a key set again keeps its place *)

Fixpoint Map_get {V : Type} (key : string) (m : list (string * V)) : option V :=
  match m with
  | [] => None
  | (k, v) :: m' => if bool_decide (k = key) then Some v else Map_get key m'
  end.

Fixpoint Map_set {V : Type} (key : string) (value : V) (m : list (string * V))
  : list (string * V) :=
  match m with
  | [] => [(key, value)]
  | (k, v) :: m' =>
      if bool_decide (k = key) then (key, value) :: m'
      else (k, v) :: Map_set key value m'
  end.

(** ** JavaScript objects: the order of the own properties

    An object made by [{}] lists its own string keys with the array
    indices first, in ascending numeric order, and the other keys after
    them in the order in which they were created; [JSON.stringify] follows
    that order. An object is given by its properties in that order. *)

Definition digit_value (c : ascii) : option N :=
  let n := N_of_ascii c in
  if (48 <=? n)%N && (n <=? 57)%N then Some (n - 48)%N else None.

Fixpoint decimal_value (s : string) (acc : N) : option N :=
  match s with
  | EmptyString => Some acc
  | String c s' =>
      match digit_value c with
      | Some d => decimal_value s' (10 * acc + d)%N
      | None => None
      end
  end.

(** An array index: the canonical decimal text, without sign or leading
    zero, of an integer from 0 to 2^32 - 2. *)
Definition array_index (key : string) : option N :=
  match key with
  | EmptyString => None
  | String c rest =>
      if bool_decide (c = "0"%char) && negb (bool_decide (rest = EmptyString)) then None
      else
        match decimal_value key 0 with
        | Some n => if (n <=? 4294967294)%N then Some n else None
        | None => None
        end
  end.

(** [key_before a b]: a new key [a] is listed before the key [b] that is
    there: [a] is an array index, and [b] is none or a greater one. *)
Definition key_before (a b : string) : bool :=
  match array_index a, array_index b with
  | Some i, Some j => (i <? j)%N
  | Some _, None => true
  | None, _ => false
  end.

(** An own property is set: a key that is there keeps its place, a new
    array index goes to its place among the indices, any other new key to
    the end. *)
Fixpoint Object_put (key value : string) (obj : list (string * string))
  : list (string * string) :=
  match obj with
  | [] => [(key, value)]
  | (k, v) :: obj' =>
      if bool_decide (k = key) then (key, value) :: obj'
      else if key_before key k then (key, value) :: (k, v) :: obj'
      else (k, v) :: Object_put key value obj'
  end.

(** [obj[key] = value] for a string [value], on an object made by [{}]: an
    own property is set, except that [__proto__] names the prototype, and
    a string assigned to it is dropped. *)
Definition Object_set (key value : string) (obj : list (string * string))
  : list (string * string) :=
  if bool_decide (key = "__proto__") then obj else Object_put key value obj.

(** The order in which an object lists two of its keys: the later one is
    not to be listed before the earlier one. *)
Definition listed_in_order (a b : string) : Prop := key_before b a = false.

(** ** The installer object and its world *)

Record Entry := {
  packageLocator : Locator;
  packageLocation : PortablePath;
  packageDependencies : gset string;
}.

Record DmInstaller := {
  opts : LinkOptions;
  enabled : bool;
  dependencies : list (string * Entry);
}.

(** [constructor(opts)]. *)
Definition new_DmInstaller (opts : LinkOptions) : DmInstaller :=
  {| opts := opts;
     enabled := dmLinker (configuration (project opts));
     dependencies := [] |}.

Record World := {
  this : DmInstaller;
  xfs : fsnode;
}.

Inductive exn :=
| UsageError (message : string)
| JsError (message : string)
| FsError (code : errno) (path : PortablePath).

Inductive outcome (A : Type) :=
| Return (a : A)
| Throw (e : exn).
Arguments Return {A} a.
Arguments Throw {A} e.

(** A method runs on a world and leaves a world, with the value it returns
    or the exception it throws; what was done before a throw stays done. *)
Definition M (A : Type) : Type := World -> outcome A * World.

Global Instance M_ret : MRet M := fun A a w => (Return a, w).

Global Instance M_bind : MBind M := fun A B f m w =>
  match m w with
  | (Return a, w') => f a w'
  | (Throw e, w') => (Throw e, w')
  end.

Definition throw {A : Type} (e : exn) : M A := fun w => (Throw e, w).

Definition getThis : M DmInstaller := fun w => (Return (this w), w).

Definition readXfs : M fsnode := fun w => (Return (xfs w), w).

Definition dependencies_put (m : list (string * Entry)) : M unit := fun w =>
  (Return tt,
   {| this := {| opts := opts (this w); enabled := enabled (this w); dependencies := m |};
      xfs := xfs w |}).

(** [this.dependencies.set(key, value)]. *)
Definition dependencies_set (key : string) (value : Entry) : M unit :=
  this ← getThis;
  dependencies_put (Map_set key value (dependencies this)).

(** A file-system call that changes the disk, or throws and leaves it. *)
Definition xfs_update (path : PortablePath) (op : fsnode -> result fsnode) : M unit := fun w =>
  match op (xfs w) with
  | Ok root => (Return tt, {| this := this w; xfs := root |})
  | Fail code => (Throw (FsError code path), w)
  end.

(** [for (const x of items) ...], with the variables the body updates. *)
Fixpoint for_of {A S : Type} (items : list A) (body : S -> A -> M S) (acc : S) : M S :=
  match items with
  | [] => mret acc
  | x :: items' => acc' ← body acc x; for_of items' body acc'
  end.

(** ** The installer *)

Section Installer.

(** [process.cwd()]: where the relative paths of the real file system
    start. *)
Variable process_cwd : PortablePath.

(** The core library's [Descriptor]; the installer never looks into it. *)
Variable Descriptor : Type.

(** [structUtils.isVirtualLocator] and [structUtils.prettyLocator]. *)
Variable isVirtualLocator : Locator -> bool.
Variable prettyLocator : Configuration -> Locator -> string.

(** [JSON.stringify(data, null, 2)] of an object with string values, given
    by its own properties in the order in which the object lists them. *)
Variable JSON_stringify : list (string * string) -> string.

(** *** ./paths

    [./paths] is not among the sources. Of its four functions the spec
    gives the vendor root and the vendor path of a package; the path map
    and the include file are at "fixed" paths it does not name, and the
    sanitizing of an identity is not described. *)

Variable sanitizeIdentity : string -> Filename.
Variable getPathmapPath : Project -> PortablePath.
Variable getIncludePath : Project -> PortablePath.

(** Modelled from the spec: the "fixed-vendor-dirname", [.vendor] in the
    spec's scenario. *)
Definition vendorDirname : Filename := ".vendor".

(** Modelled from the spec: [getVendorPath] of [./paths],
    "<root>/<fixed-vendor-dirname>". *)
Definition getVendorPath (project : Project) : PortablePath :=
  ppath.join [cwd project; vendorDirname].

(** Modelled from the spec: [getVendoredPackagePath] of [./paths],
    "vendorRoot/<sanitized-identity>". *)
Definition getVendoredPackagePath (project : Project) (locator : Locator) : PortablePath :=
  ppath.join [getVendorPath project; sanitizeIdentity (locatorHash locator)].

(** *** xfs: the real file system *)

Definition xfs_segments (p : PortablePath) : list string :=
  path_segments process_cwd p.

(** Modelled from the spec: [xfs.mkdirPromise(p, {recursive: true})]. *)
Definition xfs_mkdirPromise (p : PortablePath) : M unit :=
  xfs_update p (fs_mkdirp (xfs_segments p)).

(** Modelled from the spec:
    [xfs.copyPromise(destination, source, {baseFs, overwrite: false})];
    [source] is looked up in [baseFs], and a source that is not there is
    [ENOENT]. *)
Definition xfs_copyPromise (destination source : PortablePath) (baseFs : FakeFS) : M unit :=
  match lookup_path (path_segments SEP source) (contents baseFs) with
  | None => throw (FsError ENOENT source)
  | Some found => xfs_update destination (fs_copy (xfs_segments destination) found)
  end.

(** Modelled from the spec: [xfs.removeSync(p, {recursive: true})]. *)
Definition xfs_removeSync (p : PortablePath) : M unit := fun w =>
  (Return tt, {| this := this w; xfs := fs_remove (xfs_segments p) (xfs w) |}).

(** Modelled from the spec: [xfs.existsSync(p)]: is there a file or a
    directory at [p]. *)
Definition xfs_existsSync (p : PortablePath) : M bool :=
  root ← readXfs;
  mret (Boolean (lookup_path (xfs_segments p) root)).

(** Modelled from the spec: [xfs.writeFilePromise(p, content)]. *)
Definition xfs_writeFilePromise (p : PortablePath) (content : string) : M unit :=
  xfs_update p (fs_write (xfs_segments p) content).

(** *** DmInstaller's methods *)

Definition featureDisabledMessage : string :=
  "Installing DM packages requires " +:+ dq +:+ "dmLinker: true" +:+ dq +:+ " in .yarnrc.yml".

(** The copy-or-reference decision of [installPackage]. *)
Definition isHardLink (this : DmInstaller) (pkg : Package) : bool :=
  let isWorkspace := Boolean (tryWorkspaceByLocator (project (opts this)) pkg) in
  bool_decide (linkType pkg = HARD) && negb isWorkspace.

Definition installPackage (pkg : Package) (fetchResult : FetchResult)
  : M InstallPackageResult :=
  this ← getThis;
  if negb (enabled this) then
    throw (UsageError featureDisabledMessage)
  else
    let isHardLink := isHardLink this pkg in
    let isVirtual := isVirtualLocator pkg in
    let vendorLocation := getVendoredPackagePath (project (opts this)) pkg in
    (if isHardLink then
       xfs_mkdirPromise vendorLocation;;
       xfs_copyPromise vendorLocation (prefixPath fetchResult) (packageFs fetchResult)
     else mret tt);;
    let packageLocation :=
      if isHardLink then vendorLocation
      else ppath.resolve process_cwd
             [getRealPath (packageFs fetchResult); prefixPath fetchResult] in
    dependencies_set (locatorHash pkg)
      {| packageLocator := pkg;
         packageLocation := packageLocation;
         packageDependencies := ∅ |};;
    mret {| installedLocation := packageLocation; buildDirective := None |}.

(** [getCustomDataKey()]: the JSON text of [{name: 'DmInstaller', version: 1}]. *)
Definition getCustomDataKey : string :=
  "{" +:+ dq +:+ "name" +:+ dq +:+ ":" +:+ dq +:+ "DmInstaller" +:+ dq
  +:+ "," +:+ dq +:+ "version" +:+ dq +:+ ":1}".

Definition attachCustomData (customData : string) : M unit := mret tt.

Definition unregisteredMessage (this : DmInstaller) (locator : Locator) : string :=
  "Assertion failed: Expected locator to be registered ("
    +:+ prettyLocator (configuration (project (opts this))) locator +:+ ")".

(** The entry found in the map is the object the map holds: adding to its
    set changes the ledger. *)
Definition attachInternalDependencies (locator : Locator)
    (deps : list (Descriptor * Locator)) : M unit :=
  this ← getThis;
  match Map_get (locatorHash locator) (dependencies this) with
  | None => throw (JsError (unregisteredMessage this locator))
  | Some entry =>
      let added :=
        foldl (fun set '(_, dependency) => set ∪ {[locatorHash dependency]})
              (packageDependencies entry) deps in
      dependencies_set (locatorHash locator)
        {| packageLocator := packageLocator entry;
           packageLocation := packageLocation entry;
           packageDependencies := added |}
  end.

Definition attachExternalDependents (locator : Locator)
    (dependentPaths : list PortablePath) : M unit := mret tt.

(** The object [data] of [writePathMap], one property per ledger entry. *)
Definition pathMapData (this : DmInstaller) : list (string * string) :=
  foldl (fun data '(locatorStr, entry) =>
           Object_set locatorStr
             (ppath.relative process_cwd (cwd (project (opts this))) (packageLocation entry))
             data)
        [] (dependencies this).

Definition writePathMap : M unit :=
  this ← getThis;
  let data := pathMapData this in
  let pathmapFile := getPathmapPath (project (opts this)) in
  xfs_writeFilePromise pathmapFile (JSON_stringify data +:+ nl).

Definition includesBanner : string :=
  "/*!" +:+ nl
  +:+ " * This file is auto generated by DM installer (do not edit)." +:+ nl
  +:+ " */" +:+ nl
  +:+ nl.

Definition packageIncludePath (entry : Entry) : PortablePath :=
  ppath.join [packageLocation entry; "includes.dm"].

(** The body of the first loop of [writeIncludes]: a package without the
    file is passed over, the others add the file's path, relative to the
    include file's directory, to the list. *)
Definition collectInclude (includeDirName : PortablePath) (includeList : list PortablePath)
    (item : string * Entry) : M (list PortablePath) :=
  let packageIncludePath := packageIncludePath item.2 in
  found ← xfs_existsSync packageIncludePath;
  if negb found then mret includeList
  else mret (includeList ++ [ppath.relative process_cwd includeDirName packageIncludePath]).

Definition includeLine (path : PortablePath) : string :=
  "#include " +:+ dq +:+ path +:+ dq +:+ nl.

Definition writeIncludes : M unit :=
  this ← getThis;
  let includePath := getIncludePath (project (opts this)) in
  let includeDirName := ppath.dirname includePath in
  includeList ← for_of (dependencies this) (collectInclude includeDirName) [];
  let content := includesBanner in
  let content := foldl (fun content path => content +:+ includeLine path) content includeList in
  let _ := bool_decide (content = nl) in
  xfs_mkdirPromise includeDirName;;
  xfs_writeFilePromise includePath content.

Definition finalizeInstall : M FinalizeInstallData :=
  this ← getThis;
  if negb (enabled this) then
    xfs_removeSync (getVendorPath (project (opts this)));;
    mret []
  else
    writeIncludes;;
    writePathMap;;
    mret [].

(** *** A run: the host's calls, in order, until one throws *)

Inductive Call :=
| CallInstallPackage (pkg : Package) (fetchResult : FetchResult)
| CallAttachInternalDependencies (locator : Locator) (deps : list (Descriptor * Locator))
| CallAttachExternalDependents (locator : Locator) (dependentPaths : list PortablePath)
| CallFinalizeInstall.

Definition perform (c : Call) : M unit :=
  match c with
  | CallInstallPackage pkg fetchResult => installPackage pkg fetchResult;; mret tt
  | CallAttachInternalDependencies locator deps => attachInternalDependencies locator deps
  | CallAttachExternalDependents locator dependentPaths =>
      attachExternalDependents locator dependentPaths
  | CallFinalizeInstall => finalizeInstall;; mret tt
  end.

Fixpoint run (calls : list Call) : M unit :=
  match calls with
  | [] => mret tt
  | c :: calls' => perform c;; run calls'
  end.

(** What a run needs of the packages the host has it place: a vendor path
    that is a resolved path (resolving it changes nothing), and an identity
    other than [__proto__], which no object has as a property of its own. *)
Definition placements_ok (o : LinkOptions) (calls : list Call) : bool :=
  forallb (fun c =>
             match c with
             | CallInstallPackage pkg _ =>
                 bool_decide (ppath.resolve process_cwd [getVendoredPackagePath (project o) pkg]
                              = getVendoredPackagePath (project o) pkg)
                 && bool_decide (locatorHash pkg <> "__proto__")
             | _ => true
             end) calls.

(** What holds of the installer all along a run: its options are those it
    was made with, the ledger has one entry per key, none under
    [__proto__], and every location in it is a resolved path. *)
Definition ledger_ok (o : LinkOptions) (this : DmInstaller) : Prop :=
  opts this = o
  /\ NoDup (dependencies this).*1
  /\ Forall (fun item => item.1 <> "__proto__" /\ is_resolved (packageLocation item.2))
            (dependencies this).

(** The identities of the packages the host has the installer place, call
    by call. *)
Definition placed_identities (calls : list Call) : list string :=
  omap (fun c =>
          match c with
          | CallInstallPackage pkg _ => Some (locatorHash pkg)
          | _ => None
          end) calls.

(** The keys of a [Map] after its keys [keys] have been set in turn: a key
    that is new goes to the end, a key that is there keeps its place. *)
Definition keys_after (keys : list string) (held : list string) : list string :=
  foldl (fun held key => if bool_decide (key ∈ held) then held else held ++ [key]) held keys.

(** What every entry of the ledger is filed under: the identity of its own
    locator, and no identity twice. *)
Definition ledger_keyed (this : DmInstaller) : Prop :=
  NoDup (dependencies this).*1
  /\ Forall (fun item => item.1 = locatorHash (packageLocator item.2)) (dependencies this).

(** * Proofs *)

(** ** Path arithmetic *)

Example normalize_ex : ppath.normalize "/a/b/../c/./d//e/" = "/a/c/d/e/".
Proof. reflexivity. Qed.
Example join_ex : ppath.join ["/proj"; ".vendor"; "pkgA"] = "/proj/.vendor/pkgA".
Proof. reflexivity. Qed.
Example join_ex2 : ppath.join ["proj/"; EmptyString; "../x/"] = "x/".
Proof. reflexivity. Qed.
Example dirname_ex :
  map ppath.dirname ["/proj/includes.dm"; "/a"; "a"; "/a//b/"; "a/b"; "//a"; "/"]
  = ["/proj"; "/"; "."; "/a/"; "a"; "//"; "/"].
Proof. reflexivity. Qed.
Example resolve_ex :
  ppath.resolve "/home" ["/cache/pkg.zip"; "node_modules/pkg"]
  = "/cache/pkg.zip/node_modules/pkg".
Proof. reflexivity. Qed.
Example resolve_ex2 :
  map (ppath.resolve "/home/u")
      [["a"; "../b"]; ["/x"; "/y/"; "z/.."]; [EmptyString]; ["../../.."]]
  = ["/home/u/b"; "/y"; "/home/u"; "/"].
Proof. reflexivity. Qed.
Example relative_ex :
  map (fun '(a, b) => ppath.relative "/home" a b)
      [("/proj", "/proj/.vendor/pkgA"); ("/proj/a/b", "/proj/c"); ("/proj", "/proj");
       ("/proj/", "/proj"); ("/", "/a"); ("/a/b", "/"); ("/a/bc", "/a/b")]
  = [".vendor/pkgA"; "../../c"; EmptyString; EmptyString; "a"; "../.."; "../b"].
Proof. reflexivity. Qed.

Lemma app_cons c (a b : string) : String c a +:+ b = String c (a +:+ b).
Proof. reflexivity. Qed.

Lemma app_nil_l (b : string) : EmptyString +:+ b = b.
Proof. reflexivity. Qed.

Lemma string_app_assoc (a b c : string) : (a +:+ b) +:+ c = a +:+ (b +:+ c).
Proof. induction a as [|x a IH]; [done |]. rewrite !app_cons. by f_equal. Qed.

Lemma string_app_nil_r (a : string) : a +:+ EmptyString = a.
Proof. induction a as [|x a IH]; [done |]. rewrite app_cons. by f_equal. Qed.

Lemma split_sep_nonempty s : split_sep s <> [].
Proof.
  destruct s as [|c s]; simpl; [done |].
  case_bool_decide; [done |]. by destruct (split_sep s).
Qed.

Lemma split_sep_app a b : split_sep (a +:+ SEP +:+ b) = split_sep a ++ split_sep b.
Proof.
  induction a as [|c a IH].
  - done.
  - rewrite app_cons. simpl. rewrite IH. case_bool_decide; [done |].
    pose proof (split_sep_nonempty a). by destruct (split_sep a).
Qed.

Lemma split_sep_nosep s : has_sep s = false -> split_sep s = [s].
Proof.
  induction s as [|c s IH]; simpl; [done |].
  intros [Hc Hs]%orb_false_iff. rewrite bool_decide_eq_false in Hc.
  rewrite bool_decide_false by done. by rewrite IH.
Qed.

Lemma split_sep_pieces s : Forall (fun seg => has_sep seg = false) (split_sep s).
Proof.
  induction s as [|c s IH]; simpl.
  - by constructor.
  - case_bool_decide as Hc.
    + by constructor.
    + destruct (split_sep s) as [|seg rest].
      * constructor; [|done]. simpl. by rewrite bool_decide_false.
      * inversion IH; subst. constructor; [|done]. simpl. by rewrite bool_decide_false.
Qed.

Lemma split_join l :
  l <> [] -> Forall (fun seg => has_sep seg = false) l -> split_sep (join_sep l) = l.
Proof.
  induction l as [|x l IH]; [done |]. intros _ Hl. inversion Hl; subst.
  destruct l as [|y l].
  - simpl. by apply split_sep_nosep.
  - change (join_sep (x :: y :: l)) with (x +:+ SEP +:+ join_sep (y :: l)).
    rewrite split_sep_app, IH by done. by rewrite split_sep_nosep.
Qed.

Lemma is_name_nosep s : is_name s = true -> has_sep s = false.
Proof. unfold is_name. rewrite !andb_true_iff, negb_true_iff. by intros [[[? _] _] _]. Qed.

Lemma is_name_step b s st : is_name s = true -> normalizeStep b st s = s :: st.
Proof.
  unfold is_name, normalizeStep. rewrite !andb_true_iff, !bool_decide_eq_true.
  intros [[[_ ?] ?] ?]. by rewrite !bool_decide_false.
Qed.

Lemma names_nosep l : Forall (fun s => is_name s = true) l -> Forall (fun s => has_sep s = false) l.
Proof. intros H. eapply Forall_impl; [done |]. intros. by apply is_name_nosep. Qed.

Lemma norm_names b l st :
  Forall (fun s => is_name s = true) l -> foldl (normalizeStep b) st l = rev l ++ st.
Proof.
  revert st. induction l as [|x l IH]; intros st Hl; [done |].
  inversion Hl; subst. simpl. rewrite is_name_step, IH by done.
  by rewrite <- app_assoc.
Qed.

Lemma norm_ups b n st :
  n <= length st -> Forall (fun s => is_name s = true) st ->
  foldl (normalizeStep b) st (replicate n "..") = drop n st.
Proof.
  revert st. induction n as [|n IH]; intros st Hn Hst; [done |].
  destruct st as [|top st]; [simpl in Hn; lia |].
  inversion Hst as [|?? Htop Hst']; subst. simpl.
  unfold normalizeStep at 2. simpl.
  assert (top <> "..") as Hne.
  { intros ->. done. }
  rewrite bool_decide_false by done. apply IH; [simpl in Hn; lia | done].
Qed.

Lemma norm_empty b st : normalizeStep b st EmptyString = st.
Proof. done. Qed.

(* the stack after normalising: names only, when it may not climb *)
Lemma norm_stack_names st l :
  Forall (fun s => is_name s = true) st ->
  Forall (fun seg => has_sep seg = false) l ->
  Forall (fun s => is_name s = true) (foldl (normalizeStep false) st l).
Proof.
  revert st. induction l as [|x l IH]; intros st Hst Hl; [done |].
  inversion Hl as [|?? Hx Hl']; subst. simpl. apply IH; [|done].
  unfold normalizeStep.
  destruct (bool_decide (x = EmptyString)) eqn:E1; [done |].
  destruct (bool_decide (x = ".")) eqn:E2; [done |].
  destruct (bool_decide (x = "..")) eqn:E3.
  - destruct st as [|top st]; [done |].
    destruct (bool_decide (top = "..")); [done |]. by inversion Hst.
  - constructor; [|done]. unfold is_name.
    apply bool_decide_eq_false in E1, E2, E3.
    rewrite Hx. simpl. by rewrite !bool_decide_true.
Qed.

Lemma normalizeSegments_names l :
  Forall (fun seg => has_sep seg = false) l ->
  Forall (fun s => is_name s = true) (normalizeSegments false l).
Proof.
  intros Hl. unfold normalizeSegments. rewrite <- (rev_involutive (foldl _ _ _)), rev_involutive.
  apply Forall_rev. by apply norm_stack_names.
Qed.

Lemma resolveLoop_acc paths acc :
  resolveLoop paths acc
  = ((resolveLoop paths EmptyString).1 +:+ acc, (resolveLoop paths EmptyString).2).
Proof.
  revert acc. induction paths as [|path more IH]; intros acc; [done |].
  simpl. case_bool_decide; [apply IH |].
  destruct (isAbsolute path).
  - simpl. by rewrite !string_app_assoc.
  - rewrite (IH (path +:+ SEP +:+ acc)), (IH (path +:+ SEP +:+ EmptyString)). simpl.
    by rewrite !string_app_assoc.
Qed.

Lemma resolveLoop_sep paths :
  (resolveLoop paths EmptyString).1 = EmptyString
  \/ exists pre, (resolveLoop paths EmptyString).1 = pre +:+ SEP.
Proof.
  induction paths as [|path more IH]; [by left |].
  simpl. case_bool_decide; [done |].
  right. destruct (isAbsolute path).
  - exists path. simpl. by rewrite string_app_nil_r.
  - rewrite resolveLoop_acc. simpl.
    exists ((resolveLoop more EmptyString).1 +:+ path).
    by rewrite string_app_nil_r, string_app_assoc.
Qed.

Lemma split_sep_trailing x : split_sep (x +:+ SEP) = split_sep x ++ [EmptyString].
Proof. rewrite <- (string_app_nil_r SEP). by rewrite split_sep_app. Qed.

Lemma norm_trailing b st x :
  foldl (normalizeStep b) st (split_sep (x +:+ SEP)) = foldl (normalizeStep b) st (split_sep x).
Proof. by rewrite split_sep_trailing, foldl_app. Qed.

Lemma norm_split_pre b st pre acc :
  pre = EmptyString \/ (exists x, pre = x +:+ SEP) ->
  foldl (normalizeStep b) st (split_sep (pre +:+ acc))
  = foldl (normalizeStep b) (foldl (normalizeStep b) st (split_sep pre)) (split_sep acc).
Proof.
  intros [-> | [x ->]]; [done |].
  by rewrite string_app_assoc, split_sep_app, foldl_app, norm_trailing.
Qed.

(** *** With an absolute working directory *)

Section AbsoluteCwd.

Hypothesis process_cwd_absolute : isAbsolute process_cwd = true.

Local Abbreviation resolve_stack := (ppath.resolve_stack process_cwd).

Lemma process_cwd_nonempty : process_cwd <> EmptyString.
Proof. intros E. rewrite E in process_cwd_absolute. done. Qed.

Lemma resolveLoop_absolute paths acc :
  (resolveLoop (paths ++ [process_cwd]) acc).2 = true.
Proof.
  revert acc. induction paths as [|path more IH]; intros acc; simpl.
  - rewrite bool_decide_false by apply process_cwd_nonempty. by rewrite process_cwd_absolute.
  - case_bool_decide; [apply IH |].
    destruct (isAbsolute path); [done | apply IH].
Qed.

Lemma posix_resolve_stack args :
  ppath.posix_resolve process_cwd args = SEP +:+ join_sep (rev (resolve_stack args)).
Proof.
  unfold ppath.posix_resolve, ppath.resolve_stack.
  pose proof (resolveLoop_absolute (rev args) EmptyString) as Habs.
  destruct (resolveLoop (rev args ++ [process_cwd]) EmptyString) as [rp abs]. simpl in *.
  by rewrite Habs.
Qed.

Lemma resolve_stack_names args :
  Forall (fun s => is_name s = true) (resolve_stack args).
Proof. apply norm_stack_names; [done | apply split_sep_pieces]. Qed.

Lemma posix_resolve_is_resolved args : is_resolved (ppath.posix_resolve process_cwd args).
Proof.
  exists (rev (resolve_stack args)). split; [|apply posix_resolve_stack].
  apply Forall_rev, resolve_stack_names.
Qed.

Lemma resolve_is_resolved segments : is_resolved (ppath.resolve process_cwd segments).
Proof.
  unfold ppath.resolve. destruct segments as [|first rest];
    [|destruct (isAbsolute first)]; apply posix_resolve_is_resolved.
Qed.

Lemma is_resolved_absolute p : is_resolved p -> isAbsolute p = true.
Proof. by intros (segs & _ & ->). Qed.

Lemma split_root_app (b : string) : split_sep (SEP +:+ b) = EmptyString :: split_sep b.
Proof. done. Qed.

Lemma split_resolved segs :
  Forall (fun s => is_name s = true) segs ->
  foldl (normalizeStep false) [] (split_sep ((SEP +:+ join_sep segs) +:+ SEP +:+ EmptyString))
  = rev segs.
Proof.
  intros Hsegs. rewrite split_sep_app, foldl_app, split_root_app.
  destruct segs as [|x segs]; [done |].
  rewrite split_join by (done || by apply names_nosep).
  change (split_sep EmptyString) with [EmptyString].
  cbn [foldl]. rewrite !norm_empty.
  change (foldl (normalizeStep false) [] (x :: segs) = rev (x :: segs)).
  rewrite norm_names by done. by rewrite app_nil_r.
Qed.

Lemma resolve_stack_of_resolved segs :
  Forall (fun s => is_name s = true) segs ->
  resolve_stack [SEP +:+ join_sep segs] = rev segs.
Proof. intros Hsegs. unfold ppath.resolve_stack. simpl. by apply split_resolved. Qed.

Lemma posix_resolve_fix p : is_resolved p -> ppath.posix_resolve process_cwd [p] = p.
Proof.
  intros (segs & Hsegs & ->).
  by rewrite posix_resolve_stack, resolve_stack_of_resolved, rev_involutive.
Qed.

Lemma filter_nonempty_names segs :
  Forall (fun s => is_name s = true) segs ->
  filter (fun seg => seg <> EmptyString) segs = segs.
Proof.
  induction 1 as [|x l Hx Hl IH]; [done |].
  rewrite filter_cons_True, IH; [done |]. by intros ->.
Qed.

Lemma segments_of_resolved segs :
  Forall (fun s => is_name s = true) segs ->
  ppath.segments_of (SEP +:+ join_sep segs) = segs.
Proof.
  intros Hsegs. unfold ppath.segments_of.
  change (SEP +:+ join_sep segs) with (EmptyString +:+ SEP +:+ join_sep segs).
  rewrite split_sep_app. simpl. rewrite filter_cons_False by (by intros Hne).
  destruct segs as [|x segs]; [done |].
  rewrite split_join by (done || by apply names_nosep).
  by apply filter_nonempty_names.
Qed.

Lemma common_prefix_le_l a b : ppath.common_prefix a b <= length a.
Proof.
  revert b. induction a as [|x a IH]; intros [|y b]; simpl; try lia.
  case_bool_decide; [specialize (IH b) |]; lia.
Qed.

Lemma common_prefix_take a b :
  take (ppath.common_prefix a b) a = take (ppath.common_prefix a b) b.
Proof.
  revert b. induction a as [|x a IH]; intros [|y b]; simpl; try done.
  case_bool_decide; [subst; simpl; by rewrite IH | done].
Qed.

Lemma join_sep_nonempty l :
  Forall (fun s => s <> EmptyString) l -> l <> [] -> join_sep l <> EmptyString.
Proof.
  intros Hl Hne. destruct l as [|x l]; [done |]. inversion Hl; subst.
  destruct x as [|c x]; [done |]. destruct l; [done |]. simpl. by rewrite app_cons.
Qed.

Lemma join_sep_relative l :
  Forall (fun s => has_sep s = false /\ s <> EmptyString) l -> isAbsolute (join_sep l) = false.
Proof.
  intros Hl. destruct l as [|x l]; [done |]. inversion Hl as [|?? [Hx Hne] _]; subst.
  destruct x as [|c x]; [done |]. simpl in Hx. apply orb_false_iff in Hx as [Hc _].
  destruct l; simpl; done.
Qed.

Lemma relative_pieces n (rest : list string) :
  Forall (fun s => is_name s = true) rest ->
  Forall (fun s => has_sep s = false /\ s <> EmptyString) (replicate n ".." ++ rest).
Proof.
  intros Hrest. apply Forall_app. split.
  - apply Forall_replicate. done.
  - eapply Forall_impl; [done |]. intros s Hs. split; [by apply is_name_nosep |].
    by intros ->.
Qed.

Lemma resolveLoop_skip more acc : resolveLoop (EmptyString :: more) acc = resolveLoop more acc.
Proof. done. Qed.

Lemma resolveLoop_relative path more acc :
  path <> EmptyString -> isAbsolute path = false ->
  resolveLoop (path :: more) acc = resolveLoop more (path +:+ SEP +:+ acc).
Proof. intros Hne Hrel. simpl. by rewrite bool_decide_false, Hrel. Qed.

Lemma resolveLoop_twice root acc :
  resolveLoop ([root] ++ [process_cwd; process_cwd]) acc = resolveLoop ([root] ++ [process_cwd]) acc.
Proof.
  simpl. rewrite !(bool_decide_false (process_cwd = EmptyString)) by apply process_cwd_nonempty.
  by rewrite !process_cwd_absolute.
Qed.

(** What [ppath.resolve] of a root and a path below it builds on: the stack
    of the root. *)
Lemma resolve_under root rel :
  rel <> EmptyString -> isAbsolute rel = false ->
  ppath.resolve process_cwd [root; rel]
  = SEP +:+ join_sep (rev (foldl (normalizeStep false) (resolve_stack [root])
                                 (split_sep rel))).
Proof.
  intros Hne Hrel. unfold ppath.resolve.
  assert (forall args, (resolveLoop (rev args ++ [process_cwd]) EmptyString).1
                       = (resolveLoop ([root] ++ [process_cwd]) EmptyString).1 +:+ rel +:+ SEP ->
          ppath.posix_resolve process_cwd args
          = SEP +:+ join_sep (rev (foldl (normalizeStep false) (resolve_stack [root])
                                         (split_sep rel)))) as Hgo.
  { intros args Hargs. rewrite posix_resolve_stack. unfold ppath.resolve_stack.
    rewrite Hargs. rewrite norm_split_pre by apply resolveLoop_sep.
    by rewrite norm_trailing. }
  destruct (isAbsolute root); apply Hgo; cbn [rev app].
  - rewrite resolveLoop_relative by done.
    rewrite resolveLoop_acc. cbn [fst]. by rewrite string_app_nil_r.
  - rewrite resolveLoop_relative by done.
    rewrite resolveLoop_acc. cbn [fst].
    change [root; process_cwd; process_cwd] with ([root] ++ [process_cwd; process_cwd]).
    rewrite resolveLoop_twice. by rewrite string_app_nil_r.
Qed.

Lemma resolve_alone root :
  ppath.resolve process_cwd [root; EmptyString] = ppath.posix_resolve process_cwd [root].
Proof.
  unfold ppath.resolve. rewrite !posix_resolve_stack. unfold ppath.resolve_stack.
  destruct (isAbsolute root); cbn [rev app]; rewrite resolveLoop_skip; [done |].
  change [root; process_cwd; process_cwd] with ([root] ++ [process_cwd; process_cwd]).
  by rewrite resolveLoop_twice.
Qed.

(** Resolving, against a root, the relative path from that root to a
    resolved path gives the path back. *)
Lemma resolve_relative root loc :
  is_resolved loc ->
  ppath.resolve process_cwd [root; ppath.relative process_cwd root loc] = loc.
Proof.
  intros Hloc. unfold ppath.relative. case_bool_decide as Heq.
  { subst root. rewrite resolve_alone. by apply posix_resolve_fix. }
  rewrite (posix_resolve_fix loc) by done.
  destruct Hloc as (T & HT & ->). rewrite segments_of_resolved by done.
  rewrite (posix_resolve_stack [root]).
  pose proof (resolve_stack_names [root]) as HF.
  set (F := rev (resolve_stack [root])).
  assert (Forall (fun s => is_name s = true) F) as HF' by by apply Forall_rev.
  rewrite segments_of_resolved by done.
  set (k := ppath.common_prefix F T).
  assert (k <= length F) as Hk by apply common_prefix_le_l.
  set (rest := drop k T).
  assert (Forall (fun s => is_name s = true) rest) as Hrest by by apply Forall_drop.
  pose proof (relative_pieces (length F - k) rest Hrest) as Hpieces.
  destruct (decide (replicate (length F - k) ".." ++ rest = [])) as [Hnil | Hcons].
  - rewrite Hnil. cbn [join_sep]. rewrite resolve_alone, posix_resolve_stack. fold F.
    apply app_eq_nil in Hnil as [Hups Hrest'].
    assert (length F = k) as HFk.
    { destruct (length F - k) eqn:E; [lia | done]. }
    f_equal. f_equal.
    rewrite <- (take_drop k T). fold rest. rewrite Hrest', app_nil_r.
    unfold k. rewrite <- common_prefix_take. fold k. rewrite <- HFk. by rewrite firstn_all.
  - rewrite resolve_under.
    + rewrite split_join; [|done|].
      2:{ eapply Forall_impl; [exact Hpieces |]. by intros ? [? _]. }
      rewrite foldl_app. rewrite norm_ups.
      * rewrite norm_names by done.
        assert (resolve_stack [root] = rev F) as HS by (unfold F; by rewrite rev_involutive).
        rewrite HS. rewrite rev_app_distr, rev_involutive, skipn_rev, rev_involutive.
        replace (length F - (length F - k)) with k by lia.
        unfold k. rewrite common_prefix_take. fold k.
        unfold rest. by rewrite take_drop.
      * unfold F. rewrite length_rev. lia.
      * done.
    + apply join_sep_nonempty; [|done]. eapply Forall_impl; [exact Hpieces |]. by intros ? [_ ?].
    + by apply join_sep_relative.
Qed.

End AbsoluteCwd.

(** ** The disk *)

Lemma node_size_child (entries : gmap string fsnode) name child :
  entries !! name = Some child -> node_size child < node_size (Dir entries).
Proof.
  simpl. induction entries as [|i x m Hi Hfold IH] using map_first_key_ind.
  - by rewrite lookup_empty.
  - rewrite map_fold_insert_first_key by done.
    destruct (decide (i = name)) as [-> | Hne].
    + rewrite lookup_insert_eq. intros [= ->]. lia.
    + rewrite lookup_insert_ne by done. intros Hm. specialize (IH Hm). lia.
Qed.

Lemma fsnode_ind' (P : fsnode -> Prop) :
  (forall content, P (File content)) ->
  (forall entries, map_Forall (fun _ child => P child) entries -> P (Dir entries)) ->
  forall n, P n.
Proof.
  intros Hfile Hdir n.
  remember (node_size n) as k eqn:Hk. revert n Hk.
  induction k as [k IH] using lt_wf_ind. intros [content | entries] ->.
  - apply Hfile.
  - apply Hdir. intros name child Hchild.
    eapply IH; [|reflexivity]. by eapply node_size_child.
Qed.

Lemma copy_node_keeps source : forall destination q content,
  lookup_path q destination = Some (File content) ->
  lookup_path q (copy_node source (Some destination)) = Some (File content).
Proof.
  induction source as [s | entries IH] using fsnode_ind'; intros dst q c Hq.
  - done.
  - destruct dst as [existing | present]; [done |].
    destruct q as [|name q]; [done |]. simpl in *.
    rewrite lookup_merge.
    destruct (present !! name) as [d|] eqn:Hd; [|done]. simpl in Hq.
    destruct (entries !! name) as [child|] eqn:Hchild; simpl.
    + by apply (IH name child Hchild).
    + done.
Qed.

Lemma copy_node_none source : copy_node source None = source.
Proof.
  induction source as [s | entries IH] using fsnode_ind'; [done |].
  simpl. f_equal. apply map_eq. intros name. rewrite lookup_fmap.
  destruct (entries !! name) as [child|] eqn:Hchild; [|done].
  simpl. f_equal. by apply (IH name child).
Qed.

Lemma copy_node_fresh entries : copy_node (Dir entries) (Some (Dir ∅)) = Dir entries.
Proof.
  simpl. f_equal. apply map_eq. intros name. rewrite lookup_merge, lookup_empty.
  destruct (entries !! name) as [child|]; [|done]. simpl. by rewrite copy_node_none.
Qed.

Lemma copy_node_idem source : forall destination,
  copy_node source (Some (copy_node source destination)) = copy_node source destination.
Proof.
  induction source as [s | entries IH] using fsnode_ind'; intros dst.
  - by destruct dst.
  - destruct dst as [[existing | present]|]; simpl; [done | |].
    + f_equal. apply map_eq. intros name. rewrite !lookup_merge.
      destruct (entries !! name) as [child|] eqn:Hchild; simpl.
      * destruct (present !! name); simpl; f_equal; by apply (IH name child).
      * by destruct (present !! name).
    + f_equal. apply map_eq. intros name. rewrite lookup_merge, !lookup_fmap.
      destruct (entries !! name) as [child|] eqn:Hchild; [|done]. simpl.
      f_equal. by apply (IH name child).
Qed.

Lemma copy_node_dir source present :
  exists entries, copy_node source (Some (Dir present)) = Dir entries.
Proof. destruct source; simpl; eauto. Qed.

Lemma place_lookup p f : forall n n',
  place p f n = Ok n' ->
  exists x, f (n ≫= lookup_path p) = Ok x /\ lookup_path p n' = Some x.
Proof.
  induction p as [|name p IH]; intros n n' Hplace; simpl in *.
  - exists n'. by destruct n.
  - destruct n as [[c | entries]|]; [done | |].
    + destruct (place p f (entries !! name)) as [child|] eqn:Hchild; [|done].
      injection Hplace as <-. simpl. rewrite lookup_insert_eq. simpl.
      by apply IH.
    + destruct (place p f None) as [child|] eqn:Hchild; [|done].
      injection Hplace as <-. simpl. rewrite lookup_singleton_eq. simpl.
      by apply (IH None).
Qed.

Lemma place_keeps_files p f :
  keeps_files f ->
  forall n n' q content,
    place p f n = Ok n' ->
    n ≫= lookup_path q = Some (File content) ->
    lookup_path q n' = Some (File content).
Proof.
  intros Hf. induction p as [|name p IH]; intros n n' q c Hplace Hq; simpl in *.
  - by eapply Hf.
  - destruct n as [[s | entries]|]; [done | | done].
    destruct (place p f (entries !! name)) as [child|] eqn:Hchild; [|done].
    injection Hplace as <-. destruct q as [|m q]; [done |]. simpl in *.
    destruct (decide (name = m)) as [-> | Hne].
    + rewrite lookup_insert_eq. simpl. by eapply IH.
    + by rewrite lookup_insert_ne.
Qed.

Lemma place_fixed p f : forall n x,
  lookup_path p n = Some x -> f (Some x) = Ok x -> place p f (Some n) = Ok n.
Proof.
  induction p as [|name p IH]; intros n x Hp Hf; simpl in *.
  - by injection Hp as ->.
  - destruct n as [s | entries]; [done |].
    destruct (entries !! name) as [d|] eqn:Hd; [|done]. simpl in Hp.
    rewrite (IH d x) by done. by rewrite insert_id.
Qed.

Lemma ensure_dir_keeps : keeps_files ensure_dir.
Proof.
  intros [[s | entries]|] x q c; simpl; try done. by intros [= <-].
Qed.

Lemma copy_keeps source : keeps_files (fun found => Ok (copy_node source found)).
Proof.
  intros [dst|] x q c [= <-]; simpl; [|done]. apply copy_node_keeps.
Qed.

Lemma fs_write_lookup p content : forall n n',
  fs_write p content n = Ok n' -> lookup_path p n' = Some (File content).
Proof.
  induction p as [|name p IH]; intros [s | entries] n' Hw; simpl in *; try done.
  destruct p as [|name' p].
  - destruct (entries !! name) as [[?|?]|]; try done;
      injection Hw as <-; simpl; by rewrite lookup_insert_eq.
  - destruct (entries !! name) as [child|]; [|done].
    destruct (fs_write (name' :: p) content child) as [child'|] eqn:Hchild; [|done].
    injection Hw as <-. cbn [lookup_path]. rewrite lookup_insert_eq. simpl.
    by eapply IH.
Qed.

Lemma fs_remove_lookup p : forall n,
  p <> [] -> lookup_path p (fs_remove p n) = None.
Proof.
  induction p as [|name p IH]; intros n Hp; [done |].
  destruct n as [s | entries]; [by destruct p |].
  destruct p as [|name' p].
  - simpl. by rewrite lookup_delete_eq.
  - cbn [fs_remove]. destruct (entries !! name) as [child|] eqn:Hchild.
    + cbn [lookup_path]. rewrite lookup_insert_eq. simpl. by apply IH.
    + cbn [lookup_path]. by rewrite Hchild.
Qed.

Lemma fs_remove_below p q : forall n,
  p <> [] -> lookup_path (p ++ q) (fs_remove p n) = None.
Proof.
  induction p as [|name p IH]; intros n Hp; [done |].
  destruct n as [s | entries]; [by destruct p |].
  destruct p as [|name' p].
  - simpl. by rewrite lookup_delete_eq.
  - cbn [fs_remove]. destruct (entries !! name) as [child|] eqn:Hchild.
    + cbn [lookup_path app]. rewrite lookup_insert_eq. simpl. by apply IH.
    + cbn [lookup_path app]. by rewrite Hchild.
Qed.

Lemma fs_remove_elsewhere p : forall q n,
  ~ p `prefix_of` q -> stat q (fs_remove p n) = stat q n.
Proof.
  induction p as [|name p IH]; intros q n Hq; [exfalso; apply Hq; by exists q |].
  destruct n as [s | entries]; [by destruct p |].
  assert (fs_remove (name :: p) (Dir entries)
          = match p with
            | [] => Dir (delete name entries)
            | _ => match entries !! name with
                   | Some child => Dir (<[name := fs_remove p child]> entries)
                   | None => Dir entries
                   end
            end) as -> by by destruct p.
  destruct q as [|m q].
  { destruct p; [done |]. by destruct (entries !! name). }
  unfold stat in *.
  destruct (decide (name = m)) as [-> | Hne].
  - destruct p as [|name' p].
    + exfalso. apply Hq. by exists q.
    + destruct (entries !! m) as [child|] eqn:Hchild; [|done].
      cbn [lookup_path]. rewrite lookup_insert_eq, Hchild. simpl.
      apply IH. intros [r ->]. apply Hq. by exists r.
  - destruct p as [|name' p].
    + simpl. by rewrite lookup_delete_ne.
    + destruct (entries !! name) as [child|] eqn:Hchild; [|done].
      simpl. by rewrite lookup_insert_ne.
Qed.

(** ** The installer *)

Arguments ppath.join : simpl never.
Arguments ppath.resolve : simpl never.
Arguments ppath.relative : simpl never.
Arguments ppath.dirname : simpl never.
Arguments path_segments : simpl never.
Arguments getVendoredPackagePath : simpl never.
Arguments getVendorPath : simpl never.
Arguments featureDisabledMessage : simpl never.
Arguments unregisteredMessage : simpl never.

Ltac unfold_m :=
  unfold mbind, M_bind, mret, M_ret, getThis, readXfs, throw,
    dependencies_set, dependencies_put, xfs_update in *.

(** The decision is "copy" exactly for a hard link type outside the
    workspaces. *)
Lemma isHardLink_iff (this : DmInstaller) (pkg : Package) :
  isHardLink this pkg = true
  <-> linkType pkg = HARD /\ tryWorkspaceByLocator (project (opts this)) pkg = None.
Proof.
  unfold isHardLink. rewrite andb_true_iff, bool_decide_eq_true, negb_true_iff.
  destruct (tryWorkspaceByLocator _ _); simpl; split; intros [? ?]; done.
Qed.

Lemma isHardLink_false (this : DmInstaller) (pkg : Package) :
  linkType pkg = SOFT \/ is_Some (tryWorkspaceByLocator (project (opts this)) pkg) ->
  isHardLink this pkg = false.
Proof.
  intros H. apply not_true_is_false. rewrite isHardLink_iff.
  intros [Hhard Hws]. destruct H as [H | [ws H]]; congruence.
Qed.

(** What [installPackage] does when the feature is enabled and the decision
    is "reference": nothing on disk, one ledger entry. *)
Lemma installPackage_soft (pkg : Package) (fetchResult : FetchResult) (w : World) :
  enabled (this w) = true ->
  isHardLink (this w) pkg = false ->
  let packageLocation :=
    ppath.resolve process_cwd [getRealPath (packageFs fetchResult); prefixPath fetchResult] in
  installPackage pkg fetchResult w
  = (Return {| installedLocation := packageLocation; buildDirective := None |},
     {| this := {| opts := opts (this w);
                   enabled := enabled (this w);
                   dependencies :=
                     Map_set (locatorHash pkg)
                       {| packageLocator := pkg;
                          packageLocation := packageLocation;
                          packageDependencies := ∅ |}
                       (dependencies (this w)) |};
        xfs := xfs w |}).
Proof.
  intros Hen Hsoft. unfold installPackage. unfold_m. simpl.
  rewrite Hen. simpl. rewrite Hsoft. simpl. by rewrite Hen.
Qed.

(** What it does when the decision is "copy": the directory is made, the
    content copied below it, and the ledger entry points there. *)
Lemma installPackage_hard (pkg : Package) (fetchResult : FetchResult) (w : World) :
  enabled (this w) = true ->
  isHardLink (this w) pkg = true ->
  let vendorLocation := getVendoredPackagePath (project (opts (this w))) pkg in
  installPackage pkg fetchResult w
  = match fs_mkdirp (xfs_segments vendorLocation) (xfs w) with
    | Fail code => (Throw (FsError code vendorLocation), w)
    | Ok made =>
        match lookup_path (path_segments SEP (prefixPath fetchResult))
                          (contents (packageFs fetchResult)) with
        | None => (Throw (FsError ENOENT (prefixPath fetchResult)),
                   {| this := this w; xfs := made |})
        | Some source =>
            match fs_copy (xfs_segments vendorLocation) source made with
            | Fail code => (Throw (FsError code vendorLocation),
                            {| this := this w; xfs := made |})
            | Ok copied =>
                (Return {| installedLocation := vendorLocation; buildDirective := None |},
                 {| this := {| opts := opts (this w);
                               enabled := enabled (this w);
                               dependencies :=
                                 Map_set (locatorHash pkg)
                                   {| packageLocator := pkg;
                                      packageLocation := vendorLocation;
                                      packageDependencies := ∅ |}
                                   (dependencies (this w)) |};
                    xfs := copied |})
            end
        end
    end.
Proof.
  intros Hen Hhard. unfold installPackage, xfs_mkdirPromise, xfs_copyPromise. unfold_m. simpl.
  rewrite Hen. simpl. rewrite Hhard. simpl.
  destruct (fs_mkdirp _ _) as [made | code]; [|done]. simpl.
  destruct (lookup_path _ (contents _)) as [source|]; [|done]. simpl.
  destruct (fs_copy _ _ _) as [copied | code]; [|done]. simpl. by rewrite Hen.
Qed.

(** *** The ledger *)

Lemma Map_get_set_eq {V : Type} key (value : V) m :
  Map_get key (Map_set key value m) = Some value.
Proof.
  induction m as [|[k v] m IH]; simpl.
  - by rewrite bool_decide_true.
  - case_bool_decide as Hk; simpl.
    + by rewrite bool_decide_true.
    + by rewrite bool_decide_false.
Qed.

Lemma Map_get_set_ne {V : Type} key key' (value : V) m :
  key' <> key -> Map_get key' (Map_set key value m) = Map_get key' m.
Proof.
  intros Hne. induction m as [|[k v] m IH]; simpl.
  - by rewrite bool_decide_false.
  - case_bool_decide as Hk; simpl.
    + subst k. by rewrite !bool_decide_false.
    + by rewrite IH.
Qed.

Lemma Map_set_keys {V : Type} key (value : V) m :
  is_Some (Map_get key m) -> (Map_set key value m).*1 = m.*1.
Proof.
  induction m as [|[k v] m IH]; csimpl.
  - by intros [? ?].
  - case_bool_decide as Hk; csimpl; [by subst | intros Hm; by rewrite IH].
Qed.

Lemma Map_set_new {V : Type} key (value : V) m :
  Map_get key m = None -> Map_set key value m = m ++ [(key, value)].
Proof.
  induction m as [|[k v] m IH]; simpl; [done |].
  case_bool_decide; [done | intros Hm; by rewrite IH].
Qed.

Lemma Map_set_same {V : Type} key (value : V) m :
  Map_get key m = Some value -> Map_set key value m = m.
Proof.
  induction m as [|[k v] m IH]; simpl; [done |].
  case_bool_decide; [by intros [= ->]; subst | intros Hm; by rewrite IH].
Qed.

Lemma Map_set_set {V : Type} key (value value' : V) m :
  Map_set key value (Map_set key value' m) = Map_set key value m.
Proof.
  induction m as [|[k v] m IH]; simpl.
  - by rewrite bool_decide_true.
  - case_bool_decide as Hk; simpl.
    + by rewrite bool_decide_true.
    + by rewrite bool_decide_false, IH.
Qed.

Lemma Map_get_Some_elem {V : Type} key (value : V) m :
  Map_get key m = Some value -> (key, value) ∈ m.
Proof.
  induction m as [|[k v] m IH]; simpl; [done |].
  case_bool_decide.
  - intros [= ->]. subst. apply list_elem_of_here.
  - intros Hm. apply list_elem_of_further. by apply IH.
Qed.

Lemma Map_set_NoDup {V : Type} key (value : V) m :
  NoDup m.*1 -> NoDup (Map_set key value m).*1.
Proof.
  intros Hm. destruct (Map_get key m) as [v|] eqn:Hget.
  - by rewrite Map_set_keys.
  - rewrite Map_set_new by done. rewrite fmap_app. simpl.
    apply NoDup_app. split; [done |]. split; [|apply NoDup_singleton].
    intros k Hk ->%list_elem_of_singleton.
    clear Hm. induction m as [|[k v] m IH]; simpl in *; [by apply elem_of_nil in Hk |].
    case_bool_decide; [done |]. apply elem_of_cons in Hk as [-> | Hk]; [done | by apply IH].
Qed.

(** *** The feature flag *)

(** C6: with the feature disabled [installPackage] throws the usage error
    whose message names the setting [dmLinker: true], and leaves the world
    as it was; with the feature enabled it throws no usage error. *)
Theorem installPackage_feature_flag (pkg : Package) (fetchResult : FetchResult) (w : World) :
  (enabled (this w) = false ->
     installPackage pkg fetchResult w = (Throw (UsageError featureDisabledMessage), w)
     /\ exists before after, featureDisabledMessage = before +:+ "dmLinker: true" +:+ after)
  /\ (enabled (this w) = true ->
        forall message, (installPackage pkg fetchResult w).1 <> Throw (UsageError message)).
Proof.
  split.
  - intros Hoff. split.
    + unfold installPackage. unfold_m. simpl. by rewrite Hoff.
    + exists ("Installing DM packages requires " +:+ dq), (dq +:+ " in .yarnrc.yml").
      reflexivity.
  - intros Hon message. destruct (isHardLink (this w) pkg) eqn:Hlink.
    + rewrite installPackage_hard by done.
      destruct (fs_mkdirp _ _); [|done].
      destruct (lookup_path _ (contents _)); [|done].
      by destruct (fs_copy _ _ _).
    + by rewrite installPackage_soft.
Qed.

(** The flag the installer keeps is the configuration's. *)
Lemma new_DmInstaller_enabled (o : LinkOptions) :
  enabled (new_DmInstaller o) = dmLinker (configuration (project o)).
Proof. reflexivity. Qed.

(** *** Referencing in place *)

(** C3: for a package that is soft-linked or a workspace, [installPackage]
    leaves the disk as it was, nothing copied and nothing written, and,
    the feature being enabled, returns the fetched content's real path
    resolved with the prefix path. *)
Theorem installPackage_reference (pkg : Package) (fetchResult : FetchResult) (w : World) :
  linkType pkg = SOFT
    \/ Boolean (tryWorkspaceByLocator (project (opts (this w))) pkg) = true ->
  xfs (installPackage pkg fetchResult w).2 = xfs w
  /\ (enabled (this w) = true ->
      exists w',
        installPackage pkg fetchResult w
        = (Return {| installedLocation :=
                       ppath.resolve process_cwd
                         [getRealPath (packageFs fetchResult); prefixPath fetchResult];
                     buildDirective := None |}, w')
        /\ xfs w' = xfs w).
Proof.
  intros Hsoft.
  assert (isHardLink (this w) pkg = false) as Hlink.
  { apply isHardLink_false. destruct Hsoft as [? | Hws]; [by left | right].
    by destruct (tryWorkspaceByLocator _ _). }
  destruct (enabled (this w)) eqn:Hon.
  - rewrite installPackage_soft by done. split; [done |]. intros _. by eexists.
  - split; [|done]. unfold installPackage. unfold_m. simpl. by rewrite Hon.
Qed.

(** *** Placing a package again *)

(** C10: whatever entry the ledger had for the package, after
    [installPackage] returns the entry is a fresh one, at the returned
    location and with no dependencies; an entry that was there is replaced
    where it stood. *)
Theorem installPackage_again_resets_dependencies
    (pkg : Package) (fetchResult : FetchResult) (w w' : World) (r : InstallPackageResult)
    (old : Entry) :
  Map_get (locatorHash pkg) (dependencies (this w)) = Some old ->
  installPackage pkg fetchResult w = (Return r, w') ->
  Map_get (locatorHash pkg) (dependencies (this w'))
  = Some {| packageLocator := pkg;
            packageLocation := installedLocation r;
            packageDependencies := ∅ |}
  /\ (dependencies (this w')).*1 = (dependencies (this w)).*1.
Proof.
  intros Hold Hinstall.
  destruct (enabled (this w)) eqn:Hon.
  2:{ unfold installPackage in Hinstall. unfold_m. simpl in Hinstall.
      by rewrite Hon in Hinstall. }
  destruct (isHardLink (this w) pkg) eqn:Hlink.
  - rewrite installPackage_hard in Hinstall by done.
    destruct (fs_mkdirp _ _); [|done].
    destruct (lookup_path _ (contents _)); [|done].
    destruct (fs_copy _ _ _); [|done].
    injection Hinstall as <- <-. simpl. split; [apply Map_get_set_eq |].
    apply Map_set_keys. by eexists.
  - rewrite installPackage_soft in Hinstall by done.
    injection Hinstall as <- <-. simpl. split; [apply Map_get_set_eq |].
    apply Map_set_keys. by eexists.
Qed.

(** *** Attaching dependencies *)

Lemma add_all_union (deps : list (Descriptor * Locator)) (set : gset string) :
  foldl (fun set '(_, dependency) => set ∪ {[locatorHash dependency]}) set deps
  = set ∪ list_to_set ((fun d => locatorHash d.2) <$> deps).
Proof.
  revert set. induction deps as [|[descriptor dependency] deps IH]; intros set; simpl.
  - by rewrite union_empty_r_L.
  - by rewrite IH, <- (assoc_L (∪)).
Qed.

(** C8: [attachInternalDependencies] throws its assertion error exactly
    when the ledger has no entry for the locator; when it has one, the
    dependencies' identities are added to the entry's set, nothing else
    changes, and the same call again changes nothing more. *)
Theorem attachInternalDependencies_spec
    (locator : Locator) (deps : list (Descriptor * Locator)) (w : World) :
  ((attachInternalDependencies locator deps w).1
     = Throw (JsError (unregisteredMessage (this w) locator))
   <-> Map_get (locatorHash locator) (dependencies (this w)) = None)
  /\ (forall entry,
        Map_get (locatorHash locator) (dependencies (this w)) = Some entry ->
        exists w',
          attachInternalDependencies locator deps w = (Return tt, w')
          /\ xfs w' = xfs w
          /\ Map_get (locatorHash locator) (dependencies (this w'))
             = Some {| packageLocator := packageLocator entry;
                       packageLocation := packageLocation entry;
                       packageDependencies :=
                         packageDependencies entry
                           ∪ list_to_set ((fun d => locatorHash d.2) <$> deps) |}
          /\ (forall key, key <> locatorHash locator ->
                Map_get key (dependencies (this w')) = Map_get key (dependencies (this w)))
          /\ (dependencies (this w')).*1 = (dependencies (this w)).*1
          /\ attachInternalDependencies locator deps w' = (Return tt, w')).
Proof.
  unfold attachInternalDependencies. unfold_m. simpl.
  destruct (Map_get (locatorHash locator) (dependencies (this w))) as [entry|] eqn:Hget.
  - split; [split; done |]. intros ? [= <-]. eexists. split; [reflexivity |]. simpl.
    rewrite add_all_union, Map_get_set_eq.
    repeat split.
    + intros key Hkey. by apply Map_get_set_ne.
    + apply Map_set_keys. by eexists.
    + unfold_m. simpl. rewrite add_all_union, Map_set_set.
      by rewrite <- (assoc_L (∪)), (idemp_L (∪)).
  - split; [done |]. intros ? [=].
Qed.

(** *** Copying into the vendor tree *)

Lemma ensure_dir_dir found d : ensure_dir found = Ok d -> exists entries, d = Dir entries.
Proof. destruct found as [[s | entries]|]; simpl; intros [= <-]; eauto. Qed.

Lemma fs_mkdirp_lookup p root made :
  fs_mkdirp p root = Ok made ->
  exists entries,
    lookup_path p made = Some (Dir entries)
    /\ (lookup_path p root = None -> entries = ∅).
Proof.
  intros Hmk. apply place_lookup in Hmk as (d & Hd & Hlook). simpl in Hd.
  destruct (lookup_path p root) as [[s | entries]|]; simpl in Hd; try done;
    injection Hd as <-; eexists; (split; [done | by intros ?]).
Qed.

Lemma fs_mkdirp_keeps p root made q content :
  fs_mkdirp p root = Ok made ->
  lookup_path q root = Some (File content) -> lookup_path q made = Some (File content).
Proof. intros Hmk Hq. by eapply (place_keeps_files p ensure_dir ensure_dir_keeps). Qed.

Lemma fs_mkdirp_fixed p root entries :
  lookup_path p root = Some (Dir entries) -> fs_mkdirp p root = Ok root.
Proof. intros Hp. by eapply place_fixed. Qed.

Lemma fs_copy_total p source root : is_Some (lookup_path p root) ->
  exists copied, fs_copy p source root = Ok copied.
Proof.
  unfold fs_copy. revert root. induction p as [|name p IH]; intros root [x Hx]; simpl in *.
  - eauto.
  - destruct root as [s | entries]; [done |].
    destruct (entries !! name) as [child|] eqn:Hchild; [|done]. simpl in Hx.
    destruct (IH child) as [copied ->]; eauto.
Qed.

Lemma fs_copy_lookup p source root copied :
  fs_copy p source root = Ok copied ->
  lookup_path p copied = Some (copy_node source (lookup_path p root)).
Proof.
  intros Hcp. apply place_lookup in Hcp as (x & Hx & Hlook). simpl in Hx.
  by injection Hx as <-.
Qed.

Lemma fs_copy_keeps p source root copied q content :
  fs_copy p source root = Ok copied ->
  lookup_path q root = Some (File content) -> lookup_path q copied = Some (File content).
Proof.
  intros Hcp Hq.
  by eapply (place_keeps_files p _ (copy_keeps source)).
Qed.

Lemma fs_copy_again p source root copied :
  fs_copy p source root = Ok copied -> fs_copy p source copied = Ok copied.
Proof.
  intros Hcp. pose proof (fs_copy_lookup _ _ _ _ Hcp) as Hlook.
  eapply place_fixed; [exact Hlook |]. by rewrite copy_node_idem.
Qed.

(** Whatever [installPackage] does, and however it ends, a file that was
    on disk is there afterwards with the bytes it had. *)
Lemma installPackage_keeps_files (pkg : Package) (fetchResult : FetchResult) (w : World)
    q content :
  lookup_path q (xfs w) = Some (File content) ->
  lookup_path q (xfs (installPackage pkg fetchResult w).2) = Some (File content).
Proof.
  intros Hq. destruct (enabled (this w)) eqn:Hon.
  2:{ unfold installPackage. unfold_m. simpl. by rewrite Hon. }
  destruct (isHardLink (this w) pkg) eqn:Hlink.
  2:{ by rewrite installPackage_soft. }
  rewrite installPackage_hard by done.
  destruct (fs_mkdirp _ _) as [made | code] eqn:Hmk; [|done].
  pose proof (fs_mkdirp_keeps _ _ _ _ _ Hmk Hq) as Hmade.
  destruct (lookup_path _ (contents _)) as [source|]; [|done].
  destruct (fs_copy _ _ _) as [copied | code] eqn:Hcp; [|done].
  simpl. by eapply fs_copy_keeps.
Qed.

(** A call that returned, made again with the same package and content,
    returns the same and leaves the world as it is. *)
Lemma installPackage_again (pkg : Package) (fetchResult : FetchResult) (w w1 : World)
    (r : InstallPackageResult) :
  installPackage pkg fetchResult w = (Return r, w1) ->
  installPackage pkg fetchResult w1 = (Return r, w1).
Proof.
  intros Hfirst. destruct (enabled (this w)) eqn:Hon.
  2:{ unfold installPackage in Hfirst. unfold_m. simpl in Hfirst.
      by rewrite Hon in Hfirst. }
  destruct (isHardLink (this w) pkg) eqn:Hlink.
  - rewrite installPackage_hard in Hfirst by done.
    destruct (fs_mkdirp _ _) as [made | code] eqn:Hmk; [|done].
    destruct (lookup_path _ (contents _)) as [source|] eqn:Hsrc; [|done].
    destruct (fs_copy _ _ _) as [copied | code] eqn:Hcp; [|done].
    injection Hfirst as <- <-.
    rewrite installPackage_hard by done. simpl.
    apply fs_mkdirp_lookup in Hmk as (entries & Hmade & _).
    pose proof (fs_copy_lookup _ _ _ _ Hcp) as Hcopied. rewrite Hmade in Hcopied.
    destruct (copy_node_dir source entries) as [entries' Hdir]. rewrite Hdir in Hcopied.
    rewrite (fs_mkdirp_fixed _ _ _ Hcopied), Hsrc, (fs_copy_again _ _ _ _ Hcp).
    by rewrite Map_set_set.
  - rewrite installPackage_soft in Hfirst by done. injection Hfirst as <- <-.
    rewrite installPackage_soft by done. simpl. by rewrite Map_set_set.
Qed.

(** With the feature enabled, the vendor directory in place and the
    content where the fetch result says, [installPackage] returns. *)
Lemma installPackage_returns (pkg : Package) (fetchResult : FetchResult) (w : World)
    entries source :
  enabled (this w) = true ->
  lookup_path (xfs_segments (getVendoredPackagePath (project (opts (this w))) pkg)) (xfs w)
    = Some (Dir entries) ->
  lookup_path (path_segments SEP (prefixPath fetchResult)) (contents (packageFs fetchResult))
    = Some source ->
  exists r w', installPackage pkg fetchResult w = (Return r, w').
Proof.
  intros Hon Hdir Hsrc. destruct (isHardLink (this w) pkg) eqn:Hlink.
  - rewrite installPackage_hard by done.
    rewrite (fs_mkdirp_fixed _ _ _ Hdir), Hsrc.
    destruct (fs_copy_total _ source (xfs w) (mk_is_Some _ _ Hdir)) as [copied ->].
    eauto.
  - rewrite installPackage_soft by done. eauto.
Qed.

(** C2: [installPackage] never changes a file that is on disk, whatever
    the package and however the call ends; a call that returned, made a
    second time for the same package and content, returns again with the
    same location and changes nothing; and where the vendor directory of the
    package is in place, the call is not an error. *)
Theorem installPackage_twice (pkg : Package) (fetchResult : FetchResult) (w : World) :
  (forall q content,
     lookup_path q (xfs w) = Some (File content) ->
     lookup_path q (xfs (installPackage pkg fetchResult w).2) = Some (File content))
  /\ (forall r w1,
        installPackage pkg fetchResult w = (Return r, w1) ->
        installPackage pkg fetchResult w1 = (Return r, w1))
  /\ (forall entries source,
        enabled (this w) = true ->
        lookup_path (xfs_segments (getVendoredPackagePath (project (opts (this w))) pkg))
                    (xfs w) = Some (Dir entries) ->
        lookup_path (path_segments SEP (prefixPath fetchResult))
                    (contents (packageFs fetchResult)) = Some source ->
        exists r w', installPackage pkg fetchResult w = (Return r, w')).
Proof.
  split; [|split].
  - intros q content. apply installPackage_keeps_files.
  - intros r w1. apply installPackage_again.
  - intros entries source. apply installPackage_returns.
Qed.

(** C1, as the code has it: with the feature enabled, the decision is
    "copy" exactly for a hard link type outside the workspaces; without it
    the disk is left as it is; with it, once the vendor directory is made
    and the content found, the call returns the package's vendor path,
    where the content has been merged into what was there: files that were
    on disk keep their bytes, and a vendor path that did not exist holds
    exactly the content's directory. *)
Theorem installPackage_copy (pkg : Package) (fetchResult : FetchResult) (w : World) :
  enabled (this w) = true ->
  let vendorLocation := getVendoredPackagePath (project (opts (this w))) pkg in
  (isHardLink (this w) pkg = true
   <-> linkType pkg = HARD /\ tryWorkspaceByLocator (project (opts (this w))) pkg = None)
  /\ (isHardLink (this w) pkg = false -> xfs (installPackage pkg fetchResult w).2 = xfs w)
  /\ (isHardLink (this w) pkg = true ->
      forall source made,
        lookup_path (path_segments SEP (prefixPath fetchResult))
                    (contents (packageFs fetchResult)) = Some source ->
        fs_mkdirp (xfs_segments vendorLocation) (xfs w) = Ok made ->
        exists w',
          installPackage pkg fetchResult w
          = (Return {| installedLocation := vendorLocation; buildDirective := None |}, w')
          /\ lookup_path (xfs_segments vendorLocation) (xfs w')
             = Some (copy_node source (lookup_path (xfs_segments vendorLocation) made))
          /\ (forall q content,
                lookup_path q (xfs w) = Some (File content) ->
                lookup_path q (xfs w') = Some (File content))
          /\ (forall entries,
                source = Dir entries ->
                lookup_path (xfs_segments vendorLocation) (xfs w) = None ->
                lookup_path (xfs_segments vendorLocation) (xfs w') = Some (Dir entries))).
Proof.
  intros Hon vendorLocation. split; [apply isHardLink_iff |]. split.
  - intros Hsoft. by rewrite installPackage_soft.
  - intros Hhard source made Hsrc Hmk.
    pose proof (installPackage_keeps_files pkg fetchResult w) as Hkeep.
    rewrite installPackage_hard in * by done. fold vendorLocation in Hkeep |- *.
    rewrite Hmk, Hsrc in *.
    pose proof (fs_mkdirp_lookup _ _ _ Hmk) as (present & Hmade & Hfresh).
    destruct (fs_copy_total (xfs_segments vendorLocation) source made) as [copied Hcp];
      [by eexists |].
    rewrite Hcp in *. eexists. split; [reflexivity |]. simpl in *.
    pose proof (fs_copy_lookup _ _ _ _ Hcp) as Hcopied.
    split; [done |]. split; [done |].
    intros entries -> Hnone. rewrite Hcopied, Hmade, (Hfresh Hnone).
    by rewrite copy_node_fresh.
Qed.

(** *** The vendor root is not the root of the disk *)

Lemma list_ascii_app (a b : string) :
  String.list_ascii_of_string (a +:+ b)
  = String.list_ascii_of_string a ++ String.list_ascii_of_string b.
Proof. induction a as [|c a IH]; [done |]. rewrite app_cons. simpl. by rewrite IH. Qed.

Lemma ends_with_sep_app (a b : string) :
  b <> EmptyString -> ends_with_sep (a +:+ b) = ends_with_sep b.
Proof.
  intros Hb. unfold ends_with_sep. rewrite list_ascii_app, rev_app_distr.
  destruct b as [|c b]; [done |]. simpl.
  destruct (rev (String.list_ascii_of_string b) ++ [c]) eqn:E; [|done].
  by apply app_eq_nil in E as [_ ?].
Qed.

Lemma has_sep_chars (s : string) :
  has_sep s = false -> Forall (fun c => c <> slash) (String.list_ascii_of_string s).
Proof.
  induction s as [|c s IH]; simpl; [by constructor |].
  intros [Hc Hs]%orb_false_iff. constructor; [by apply bool_decide_eq_false in Hc | by apply IH].
Qed.

Lemma name_ends_with_sep (v : string) : is_name v = true -> ends_with_sep v = false.
Proof.
  intros Hv%is_name_nosep%has_sep_chars. unfold ends_with_sep.
  apply Forall_rev in Hv. destruct (rev _) as [|c l]; [done |].
  inversion Hv; subst. by rewrite bool_decide_false.
Qed.

Lemma name_nonempty (v : string) : is_name v = true -> v <> EmptyString.
Proof. by intros Hv ->. Qed.

Lemma name_relative (v : string) : is_name v = true -> isAbsolute v = false.
Proof.
  intros Hv. destruct v as [|c v]; [done |]. apply is_name_nosep in Hv. simpl in *.
  by apply orb_false_iff in Hv as [? _].
Qed.

Lemma join_sep_snoc (l : list string) (v : string) : ends_in v (join_sep (l ++ [v])).
Proof.
  induction l as [|x l IH]; [by left |]. right.
  destruct l as [|y l].
  - by exists x.
  - change (join_sep ((x :: y :: l) ++ [v])) with (x +:+ SEP +:+ join_sep ((y :: l) ++ [v])).
    destruct IH as [-> | [before ->]].
    + by exists x.
    + exists (x +:+ SEP +:+ before). by rewrite !string_app_assoc.
Qed.

Lemma ends_in_nonempty v p : is_name v = true -> ends_in v p -> p <> EmptyString.
Proof.
  intros Hv [-> | [before ->]]; [by apply name_nonempty |].
  destruct before; [done | by rewrite app_cons].
Qed.

Lemma ends_in_prefix v p (pre : string) : ends_in v p -> ends_in v (pre +:+ SEP +:+ p).
Proof.
  intros [-> | [before ->]]; right.
  - by exists pre.
  - exists (pre +:+ SEP +:+ before). by rewrite !string_app_assoc.
Qed.

Lemma ends_in_root v p : ends_in v p -> ends_in v (SEP +:+ p).
Proof.
  intros [-> | [before ->]]; right.
  - by exists EmptyString.
  - exists (SEP +:+ before). by rewrite !string_app_assoc.
Qed.

Lemma normalize_ends_in (v p : string) :
  is_name v = true -> ends_in v p -> ends_in v (ppath.normalize p).
Proof.
  intros Hv Hp. unfold ppath.normalize.
  rewrite bool_decide_false by by eapply ends_in_nonempty.
  assert (ends_with_sep p = false) as ->.
  { destruct Hp as [-> | [before ->]]; [by apply name_ends_with_sep |].
    rewrite <- string_app_assoc, ends_with_sep_app by by apply name_nonempty.
    by apply name_ends_with_sep. }
  assert (exists l, split_sep p = l ++ [v]) as [l Hl].
  { destruct Hp as [-> | [before ->]].
    - exists []. apply split_sep_nosep. by apply is_name_nosep.
    - exists (split_sep before). rewrite split_sep_app. f_equal.
      apply split_sep_nosep. by apply is_name_nosep. }
  unfold normalizeString, normalizeSegments. rewrite Hl, foldl_app. simpl.
  rewrite is_name_step by done. simpl.
  pose proof (join_sep_snoc (rev (foldl (normalizeStep (negb (isAbsolute p))) [] l)) v) as Hn.
  rewrite bool_decide_false by by eapply ends_in_nonempty.
  destruct (isAbsolute p); [by apply ends_in_root | done].
Qed.

Lemma join_ends_in (base v : string) : is_name v = true -> ends_in v (ppath.join [base; v]).
Proof.
  intros Hv. unfold ppath.join.
  destruct (decide (base = EmptyString)) as [-> | Hbase].
  - rewrite filter_cons_False by (by intros Hne).
    rewrite filter_cons_True by by apply name_nonempty.
    apply normalize_ends_in; [done | by left].
  - rewrite filter_cons_True by done.
    rewrite filter_cons_True by by apply name_nonempty.
    apply normalize_ends_in; [done |]. right. by exists base.
Qed.

Lemma path_segments_ends_in (base v p : string) :
  is_name v = true -> ends_in v p -> exists above, path_segments base p = above ++ [v].
Proof.
  intros Hv Hp. unfold path_segments, normalizeSegments.
  assert (exists before, (if isAbsolute p then p else base +:+ SEP +:+ p)
                         = before +:+ SEP +:+ v) as [before ->].
  { destruct Hp as [-> | [before ->]].
    - rewrite name_relative by done. by exists base.
    - destruct (isAbsolute _); [by exists before |].
      exists (base +:+ SEP +:+ before). by rewrite !string_app_assoc. }
  rewrite split_sep_app, foldl_app, (split_sep_nosep v) by by apply is_name_nosep.
  simpl. rewrite is_name_step by done. simpl. eauto.
Qed.

Lemma vendor_segments (p : Project) :
  exists above, xfs_segments (getVendorPath p) = above ++ [vendorDirname].
Proof. apply path_segments_ends_in; [done |]. by apply join_ends_in. Qed.

(** *** Finalizing with the feature disabled *)

(** C7: with the feature disabled [finalizeInstall] returns the empty
    object; afterwards nothing exists at the vendor root or below it; no
    file has been written: every file on disk was there before with the
    same bytes, and what is not below the vendor root is as it was. *)
Theorem finalizeInstall_disabled (w : World) :
  enabled (this w) = false ->
  let vendor := xfs_segments (getVendorPath (project (opts (this w)))) in
  exists w',
    finalizeInstall w = (Return [], w')
    /\ this w' = this w
    /\ lookup_path vendor (xfs w') = None
    /\ (forall below, lookup_path (vendor ++ below) (xfs w') = None)
    /\ (forall q content,
          lookup_path q (xfs w') = Some (File content) ->
          lookup_path q (xfs w) = Some (File content))
    /\ (forall q, ~ vendor `prefix_of` q -> stat q (xfs w') = stat q (xfs w)).
Proof.
  intros Hoff vendor. unfold finalizeInstall, xfs_removeSync. unfold_m. simpl.
  rewrite Hoff. simpl. eexists. split; [reflexivity |]. simpl. fold vendor.
  assert (vendor <> []) as Hvendor.
  { unfold vendor. destruct (vendor_segments (project (opts (this w)))) as [above ->].
    by destruct above. }
  split; [done |]. split; [by apply fs_remove_lookup |].
  split; [intros below; by apply fs_remove_below |]. split.
  - intros q content Hq.
    destruct (decide (vendor `prefix_of` q)) as [[below ->] | Hout].
    + by rewrite fs_remove_below in Hq.
    + pose proof (fs_remove_elsewhere vendor q (xfs w) Hout) as Hstat.
      unfold stat in Hstat. rewrite Hq in Hstat.
      destruct (lookup_path q (xfs w)) as [[c | entries]|]; by inversion Hstat.
  - intros q Hout. by apply fs_remove_elsewhere.
Qed.

(** *** The text of the include file *)

Arguments includesBanner : simpl never.
Arguments includeLine : simpl never.
Arguments packageIncludePath : simpl never.

(** The paths the first loop of [writeIncludes] collects for one entry. *)
Lemma collectInclude_run dir includeList item (w : World) :
  collectInclude dir includeList item w
  = (Return (includeList ++
             if Boolean (lookup_path (xfs_segments (packageIncludePath item.2)) (xfs w))
             then [ppath.relative process_cwd dir (packageIncludePath item.2)]
             else []), w).
Proof.
  unfold collectInclude, xfs_existsSync. unfold_m. simpl.
  destruct (Boolean _); simpl; [done | by rewrite app_nil_r].
Qed.

Lemma includes_loop dir (entries : list (string * Entry)) includeList (w : World) :
  for_of entries (collectInclude dir) includeList w
  = (Return (includeList ++
             entries ≫= fun item =>
               if Boolean (lookup_path (xfs_segments (packageIncludePath item.2)) (xfs w))
               then [ppath.relative process_cwd dir (packageIncludePath item.2)]
               else []), w).
Proof.
  revert includeList. induction entries as [|item entries IH]; intros includeList; simpl.
  - unfold_m. by rewrite app_nil_r.
  - unfold mbind at 1, M_bind at 1. rewrite collectInclude_run, IH.
    by rewrite <- app_assoc.
Qed.

Lemma include_lines (paths : list string) (content : string) :
  foldl (fun content path => content +:+ includeLine path) content paths
  = content +:+ concat_text (includeLine <$> paths).
Proof.
  revert content. induction paths as [|path paths IH]; intros content; simpl.
  - by rewrite string_app_nil_r.
  - by rewrite IH, string_app_assoc.
Qed.

Lemma concat_text_app (a b : list string) :
  concat_text (a ++ b) = concat_text a +:+ concat_text b.
Proof.
  induction a as [|x a IH]; simpl; [done |]. by rewrite IH, string_app_assoc.
Qed.

(** What [writeIncludes] comes down to: the text, then the two calls. *)
Lemma writeIncludes_run (w : World) :
  let includePath := getIncludePath (project (opts (this w))) in
  let includeDirName := ppath.dirname includePath in
  let contribution (entry : Entry) : string :=
    if Boolean (lookup_path (xfs_segments (ppath.join [packageLocation entry; "includes.dm"]))
                            (xfs w))
    then "#include " +:+ dq
         +:+ ppath.relative process_cwd includeDirName
               (ppath.join [packageLocation entry; "includes.dm"])
         +:+ dq +:+ nl
    else EmptyString in
  let content :=
    includesBanner
    +:+ concat_text ((fun item => contribution item.2) <$> dependencies (this w)) in
  writeIncludes w
  = (xfs_mkdirPromise includeDirName;; xfs_writeFilePromise includePath content) w.
Proof.
  intros includePath includeDirName contribution content.
  unfold writeIncludes. unfold mbind at 1, M_bind at 1. unfold getThis at 1.
  unfold mbind at 1, M_bind at 1. rewrite includes_loop. cbv zeta.
  fold includePath includeDirName. rewrite include_lines. simpl app.
  replace (concat_text (includeLine <$> _))
    with (concat_text ((fun item => contribution item.2) <$> dependencies (this w)));
    [done |].
  induction (dependencies (this w)) as [|item entries IH]; [done |].
  csimpl. rewrite fmap_app, concat_text_app, <- IH. unfold contribution at 1.
  fold (packageIncludePath item.2).
  destruct (Boolean _); simpl; [|done]. by rewrite string_app_nil_r.
Qed.

(** *** The run and the path map *)

Lemma Map_set_Forall {V : Type} (P : string * V -> Prop) key (value : V) m :
  Forall P m -> P (key, value) -> Forall P (Map_set key value m).
Proof.
  intros Hm Hnew. induction Hm as [|[k v] m Hkv Hm IH]; simpl.
  - by constructor.
  - case_bool_decide; constructor; done.
Qed.

Lemma Map_get_Forall {V : Type} (P : string * V -> Prop) key (value : V) m :
  Forall P m -> Map_get key m = Some value -> P (key, value).
Proof.
  intros Hm Hget. rewrite Forall_forall in Hm. by apply Hm, Map_get_Some_elem.
Qed.

Lemma Map_get_None_keys {V : Type} key (m : list (string * V)) :
  key ∉ m.*1 -> Map_get key m = None.
Proof.
  induction m as [|[k v] m IH]; csimpl; [done |].
  intros Hnot. apply not_elem_of_cons in Hnot as [Hne Hnot].
  rewrite bool_decide_false by done. by apply IH.
Qed.

(** What a call of [installPackage] that returns leaves in the installer. *)
Lemma installPackage_returned (pkg : Package) (fetchResult : FetchResult) (w w' : World)
    (r : InstallPackageResult) :
  installPackage pkg fetchResult w = (Return r, w') ->
  this w'
  = {| opts := opts (this w);
       enabled := enabled (this w);
       dependencies :=
         Map_set (locatorHash pkg)
           {| packageLocator := pkg;
              packageLocation := installedLocation r;
              packageDependencies := ∅ |}
           (dependencies (this w)) |}
  /\ installedLocation r
     = (if isHardLink (this w) pkg
        then getVendoredPackagePath (project (opts (this w))) pkg
        else ppath.resolve process_cwd
               [getRealPath (packageFs fetchResult); prefixPath fetchResult]).
Proof.
  intros Hinstall. destruct (enabled (this w)) eqn:Hon.
  2:{ unfold installPackage in Hinstall. unfold_m. simpl in Hinstall.
      by rewrite Hon in Hinstall. }
  destruct (isHardLink (this w) pkg) eqn:Hlink.
  - rewrite installPackage_hard in Hinstall by done.
    destruct (fs_mkdirp _ _); [|done].
    destruct (lookup_path _ (contents _)); [|done].
    destruct (fs_copy _ _ _); [|done].
    injection Hinstall as <- <-. simpl. by rewrite Hon.
  - rewrite installPackage_soft in Hinstall by done.
    injection Hinstall as <- <-. simpl. by rewrite Hon.
Qed.

Lemma writeIncludes_this (w : World) : this (writeIncludes w).2 = this w.
Proof.
  rewrite writeIncludes_run. unfold xfs_mkdirPromise, xfs_writeFilePromise. unfold_m. simpl.
  destruct (fs_mkdirp _ _); [|done]. simpl. by destruct (fs_write _ _ _).
Qed.

Lemma writePathMap_this (w : World) : this (writePathMap w).2 = this w.
Proof.
  unfold writePathMap, xfs_writeFilePromise. unfold_m. simpl. by destruct (fs_write _ _ _).
Qed.

Lemma finalizeInstall_this (w : World) : this (finalizeInstall w).2 = this w.
Proof.
  unfold finalizeInstall. unfold mbind at 1, M_bind at 1. unfold getThis at 1.
  destruct (negb (enabled (this w))).
  - done.
  - unfold mbind at 1, M_bind at 1.
    pose proof (writeIncludes_this w) as Hinc.
    destruct (writeIncludes w) as [[[] | e] w1]; [|done]. simpl in Hinc.
    unfold mbind at 1, M_bind at 1.
    pose proof (writePathMap_this w1) as Hmap.
    destruct (writePathMap w1) as [[[] | e] w2]; simpl in *; congruence.
Qed.

Section PathMap.

Hypothesis process_cwd_absolute : isAbsolute process_cwd = true.

Lemma resolved_fixed p : ppath.resolve process_cwd [p] = p -> is_resolved p.
Proof. intros <-. by apply resolve_is_resolved. Qed.

Lemma norm_resolved segs :
  Forall (fun s => is_name s = true) segs ->
  foldl (normalizeStep false) [] (split_sep (SEP +:+ join_sep segs)) = rev segs.
Proof.
  intros Hsegs. rewrite <- (norm_trailing false [] (SEP +:+ join_sep segs)).
  rewrite <- (string_app_nil_r SEP) at 2. by apply split_resolved.
Qed.

(** A name joined to a resolved path gives a resolved path. *)
Lemma join_resolved_name (base v : string) :
  is_resolved base -> is_name v = true -> is_resolved (ppath.join [base; v]).
Proof.
  intros (segs & Hsegs & ->) Hv. exists (segs ++ [v]).
  split; [apply Forall_app; split; [done | by constructor] |].
  unfold ppath.join.
  rewrite filter_cons_True by done.
  rewrite filter_cons_True by by apply name_nonempty.
  rewrite filter_nil.
  change (join_sep [SEP +:+ join_sep segs; v]) with ((SEP +:+ join_sep segs) +:+ SEP +:+ v).
  unfold ppath.normalize.
  rewrite bool_decide_false by done.
  rewrite ends_with_sep_app by by destruct v.
  rewrite ends_with_sep_app, name_ends_with_sep by (done || by apply name_nonempty).
  change (isAbsolute ((SEP +:+ join_sep segs) +:+ SEP +:+ v)) with true. simpl negb.
  unfold normalizeString, normalizeSegments.
  rewrite split_sep_app, foldl_app, norm_resolved by done.
  rewrite (split_sep_nosep v) by by apply is_name_nosep.
  simpl foldl. rewrite is_name_step by done.
  change (rev (v :: rev segs)) with (rev (rev segs) ++ [v]). rewrite rev_involutive.
  rewrite bool_decide_false; [done |].
  eapply ends_in_nonempty; [done | apply join_sep_snoc].
Qed.

(** With the project at a resolved path and an identity sanitized to a
    name, the vendor path of a package is a resolved path. *)
Lemma vendored_path_resolved (p : Project) (l : Locator) :
  is_resolved (cwd p) ->
  is_name (sanitizeIdentity (locatorHash l)) = true ->
  ppath.resolve process_cwd [getVendoredPackagePath p l] = getVendoredPackagePath p l.
Proof.
  intros Hroot Hname.
  assert (is_resolved (getVendoredPackagePath p l)) as Hres.
  { apply join_resolved_name; [|done]. by apply join_resolved_name. }
  unfold ppath.resolve. rewrite is_resolved_absolute by done.
  by apply posix_resolve_fix.
Qed.

(** Every call that returns keeps the ledger in order. *)
Lemma perform_ok (o : LinkOptions) (c : Call) (w w' : World) :
  placements_ok o [c] = true ->
  ledger_ok o (this w) ->
  perform c w = (Return tt, w') ->
  ledger_ok o (this w').
Proof.
  intros Hvendor (Hopts & Hnodup & Hres) Hcall. destruct c as [pkg fr | locator deps | |]; simpl in *.
  - unfold mbind, M_bind in Hcall.
    destruct (installPackage pkg fr w) as [[r | e] w1] eqn:Hinstall; [|done].
    injection Hcall as <-.
    apply installPackage_returned in Hinstall as [-> Hloc].
    rewrite andb_true_r, andb_true_iff, !bool_decide_eq_true in Hvendor.
    destruct Hvendor as [Hvendor Hproto].
    split; [done |]. split; [by apply Map_set_NoDup |]. simpl.
    apply Map_set_Forall; [done |]. simpl. split; [done |]. rewrite Hloc.
    destruct (isHardLink (this w) pkg).
    + apply resolved_fixed. by rewrite Hopts.
    + by apply resolve_is_resolved.
  - unfold attachInternalDependencies in Hcall. unfold_m. simpl in Hcall.
    destruct (Map_get _ _) as [entry|] eqn:Hget; [|done].
    injection Hcall as <-. simpl.
    split; [done |]. split; [by apply Map_set_NoDup |].
    apply Map_set_Forall; [done |]. simpl.
    by apply (Map_get_Forall _ _ _ _ Hres Hget).
  - by injection Hcall as <-.
  - unfold mbind, M_bind in Hcall.
    pose proof (finalizeInstall_this w) as Hthis.
    destruct (finalizeInstall w) as [[r | e] w1]; [|done].
    injection Hcall as <-. simpl in Hthis. by rewrite Hthis.
Qed.

Lemma run_ok (o : LinkOptions) (calls : list Call) : forall w w',
  placements_ok o calls = true ->
  ledger_ok o (this w) ->
  run calls w = (Return tt, w') ->
  ledger_ok o (this w').
Proof.
  induction calls as [|c calls IH]; intros w w' Hvendor Hok Hrun; simpl in *.
  - by injection Hrun as <-.
  - unfold mbind, M_bind in Hrun.
    destruct (perform c w) as [[[] | e] w1] eqn:Hcall; [|done].
    apply andb_true_iff in Hvendor as [Hc Hcalls].
    eapply IH; [done | | done].
    eapply perform_ok; [|done..]. simpl. by rewrite Hc.
Qed.

Lemma new_DmInstaller_ok (o : LinkOptions) : ledger_ok o (new_DmInstaller o).
Proof. split; [done |]. split; [constructor | constructor]. Qed.

End PathMap.

(** *** The include file *)

(** C5: the include file [writeIncludes] writes is the banner followed,
    entry by entry in the ledger's order, by nothing for an entry without
    [includes.dm] at its location and by the one line
    [#include "<path>"] for an entry with it, the path being that of the
    file relative to the directory of the include file: resolved against
    that directory it gives the file's path back, when the entry's location
    is a resolved path. *)
Theorem writeIncludes_content (w : World) :
  let includePath := getIncludePath (project (opts (this w))) in
  let includeDirName := ppath.dirname includePath in
  let manifest (entry : Entry) : PortablePath :=
    ppath.join [packageLocation entry; "includes.dm"] in
  let contribution (entry : Entry) : string :=
    if Boolean (lookup_path (xfs_segments (manifest entry)) (xfs w))
    then "#include " +:+ dq
         +:+ ppath.relative process_cwd includeDirName (manifest entry)
         +:+ dq +:+ nl
    else EmptyString in
  let content :=
    includesBanner
    +:+ concat_text ((fun item => contribution item.2) <$> dependencies (this w)) in
  writeIncludes w
  = (xfs_mkdirPromise includeDirName;; xfs_writeFilePromise includePath content) w
  /\ (forall w',
        writeIncludes w = (Return tt, w') ->
        this w' = this w
        /\ lookup_path (xfs_segments includePath) (xfs w') = Some (File content))
  /\ (forall entry,
        isAbsolute process_cwd = true ->
        is_resolved (packageLocation entry) ->
        ppath.resolve process_cwd
          [includeDirName; ppath.relative process_cwd includeDirName (manifest entry)]
        = manifest entry).
Proof.
  intros includePath includeDirName manifest contribution content.
  pose proof (writeIncludes_run w) as Hrun. cbv zeta in Hrun.
  fold includePath includeDirName in Hrun.
  split; [exact Hrun |]. split.
  - intros w'. rewrite Hrun.
    unfold xfs_mkdirPromise, xfs_writeFilePromise. unfold_m. simpl.
    destruct (fs_mkdirp _ _) as [made | code]; [|done]. simpl.
    destruct (fs_write _ _ _) as [written | code] eqn:Hwrite; [|done].
    intros [= <-]. simpl. split; [done |]. by eapply fs_write_lookup.
  - intros entry Habs Hres. apply resolve_relative; [done |].
    by apply join_resolved_name.
Qed.

(** A key that is in the ledger stays in it. *)
Lemma perform_keeps_keys (c : Call) (w w' : World) key :
  is_Some (Map_get key (dependencies (this w))) ->
  perform c w = (Return tt, w') ->
  is_Some (Map_get key (dependencies (this w'))).
Proof.
  intros Hkey Hcall.
  assert (forall k (e : Entry), is_Some (Map_get key (Map_set k e (dependencies (this w)))))
    as Hset.
  { intros k e. destruct (decide (key = k)) as [-> | Hne].
    - rewrite Map_get_set_eq. by eexists.
    - by rewrite Map_get_set_ne. }
  destruct c as [pkg fr | locator deps | |]; simpl in *.
  - unfold mbind, M_bind in Hcall.
    destruct (installPackage pkg fr w) as [[r | e] w1] eqn:Hinstall; [|done].
    injection Hcall as <-. apply installPackage_returned in Hinstall as [-> _]. apply Hset.
  - unfold attachInternalDependencies in Hcall. unfold_m. simpl in Hcall.
    destruct (Map_get (locatorHash locator) _) as [entry|]; [|done].
    injection Hcall as <-. apply Hset.
  - by injection Hcall as <-.
  - unfold mbind, M_bind in Hcall.
    pose proof (finalizeInstall_this w) as Hthis.
    destruct (finalizeInstall w) as [[r | e] w1]; [|done].
    injection Hcall as <-. simpl in Hthis. by rewrite Hthis.
Qed.

Lemma run_keeps_keys (calls : list Call) key : forall w w',
  is_Some (Map_get key (dependencies (this w))) ->
  run calls w = (Return tt, w') ->
  is_Some (Map_get key (dependencies (this w'))).
Proof.
  induction calls as [|c calls IH]; intros w w' Hkey Hrun; simpl in *.
  - by injection Hrun as <-.
  - unfold mbind, M_bind in Hrun.
    destruct (perform c w) as [[[] | e] w1] eqn:Hcall; [|done].
    eapply IH; [|done]. by eapply perform_keeps_keys.
Qed.

(** Every package a run places is in the ledger at the end. *)
Lemma run_places (calls : list Call) pkg fr : forall w w',
  CallInstallPackage pkg fr ∈ calls ->
  run calls w = (Return tt, w') ->
  is_Some (Map_get (locatorHash pkg) (dependencies (this w'))).
Proof.
  induction calls as [|c calls IH]; intros w w' Hin Hrun; simpl in *.
  - by apply elem_of_nil in Hin.
  - unfold mbind, M_bind in Hrun.
    destruct (perform c w) as [[[] | e] w1] eqn:Hcall; [|done].
    apply elem_of_cons in Hin as [<- | Hin]; [|by eapply IH].
    eapply run_keeps_keys; [|done]. simpl in Hcall.
    unfold mbind, M_bind in Hcall.
    destruct (installPackage pkg fr w) as [[r | e] w2] eqn:Hinstall; [|done].
    injection Hcall as <-. apply installPackage_returned in Hinstall as [-> _].
    simpl. rewrite Map_get_set_eq. by eexists.
Qed.

(** Setting an own property: what is read back. *)
Lemma Object_put_get_eq key value (obj : list (string * string)) :
  Map_get key (Object_put key value obj) = Some value.
Proof.
  induction obj as [|[k v] obj IH]; simpl.
  - by rewrite bool_decide_true.
  - case_bool_decide as Hk; simpl; [by rewrite bool_decide_true |].
    destruct (key_before key k); simpl.
    + by rewrite bool_decide_true.
    + by rewrite bool_decide_false.
Qed.

Lemma Object_put_get_ne key key' value (obj : list (string * string)) :
  key' <> key -> Map_get key' (Object_put key value obj) = Map_get key' obj.
Proof.
  intros Hne. induction obj as [|[k v] obj IH]; simpl.
  - by rewrite bool_decide_false.
  - case_bool_decide as Hk; simpl.
    + subst k. by rewrite !bool_decide_false.
    + destruct (key_before key k); simpl.
      * by rewrite (bool_decide_false (key = key')).
      * by rewrite IH.
Qed.

(** The object [writePathMap] builds has, for every key of the ledger,
    the relative path of that key's entry. *)
Lemma pathMapData_other (root : PortablePath) (m : list (string * Entry)) key : forall data,
  key ∉ m.*1 ->
  Map_get key
    (foldl (fun data '(locatorStr, entry) =>
              Object_set locatorStr
                (ppath.relative process_cwd root (packageLocation entry)) data)
           data m)
  = Map_get key data.
Proof.
  induction m as [|[k e] m IH]; intros data Hnot; csimpl in *; [done |].
  apply not_elem_of_cons in Hnot as [Hne Hnot].
  rewrite IH by done. unfold Object_set. case_bool_decide; [done |].
  by apply Object_put_get_ne.
Qed.

Lemma pathMapData_get (root : PortablePath) (m : list (string * Entry)) key entry : forall data,
  NoDup m.*1 ->
  key <> "__proto__" ->
  Map_get key m = Some entry ->
  Map_get key
    (foldl (fun data '(locatorStr, entry) =>
              Object_set locatorStr
                (ppath.relative process_cwd root (packageLocation entry)) data)
           data m)
  = Some (ppath.relative process_cwd root (packageLocation entry)).
Proof.
  induction m as [|[k e] m IH]; intros data Hnodup Hproto Hget; csimpl in *; [done |].
  apply NoDup_cons in Hnodup as [Hk Hnodup].
  case_bool_decide as Hkey.
  - injection Hget as ->. subst k. rewrite pathMapData_other by done.
    unfold Object_set. rewrite bool_decide_false by done. apply Object_put_get_eq.
  - by apply IH.
Qed.

(** C4: at the end of a run that started with a new installer and in which
    every call returned, every package placed has an entry in the ledger,
    and for every entry of the ledger the path map has, under the same key,
    a path that resolved against the project root is the entry's location;
    the file [writePathMap] writes is the JSON text of that map and a
    newline. The working directory of the process is absolute, and the
    packages are as [placements_ok] says. *)
Theorem pathMap_round_trip (o : LinkOptions) (calls : list Call) (disk : fsnode) (w : World) :
  isAbsolute process_cwd = true ->
  placements_ok o calls = true ->
  run calls {| this := new_DmInstaller o; xfs := disk |} = (Return tt, w) ->
  (forall pkg fetchResult,
     CallInstallPackage pkg fetchResult ∈ calls ->
     is_Some (Map_get (locatorHash pkg) (dependencies (this w))))
  /\ (forall identity entry,
        Map_get identity (dependencies (this w)) = Some entry ->
        exists relativePath,
          Map_get identity (pathMapData (this w)) = Some relativePath
          /\ ppath.resolve process_cwd [cwd (project o); relativePath]
             = packageLocation entry)
  /\ (forall w',
        writePathMap w = (Return tt, w') ->
        lookup_path (xfs_segments (getPathmapPath (project o))) (xfs w')
        = Some (File (JSON_stringify (pathMapData (this w)) +:+ nl))).
Proof.
  intros Habs Hvendor Hrun.
  pose proof (run_ok Habs o calls {| this := new_DmInstaller o; xfs := disk |} w
                Hvendor (new_DmInstaller_ok o) Hrun)
    as (Hopts & Hnodup & Hres).
  split; [|split].
  - intros pkg fetchResult Hin. by eapply run_places.
  - intros identity entry Hget.
    destruct (Map_get_Forall _ _ _ _ Hres Hget) as [Hproto Hresolved].
    eexists. split.
    + unfold pathMapData. by apply pathMapData_get.
    + rewrite Hopts. by apply resolve_relative.
  - intros w'. unfold writePathMap, xfs_writeFilePromise. unfold_m. simpl.
    rewrite Hopts.
    destruct (fs_write _ _ _) as [written | code] eqn:Hwrite; [|done].
    intros [= <-]. simpl. by eapply fs_write_lookup.
Qed.

(** ** Further properties of the methods *)

(** *** Placement: failures and the rest of the ledger *)

Lemma Map_get_keys {V : Type} key (m : list (string * V)) :
  is_Some (Map_get key m) <-> key ∈ m.*1.
Proof.
  induction m as [|[k v] m IH]; csimpl.
  - split; [by intros [? ?] | by intros ?%elem_of_nil].
  - rewrite elem_of_cons. case_bool_decide as Hk.
    + split; [intros _; by left | intros _; by eexists].
    + rewrite IH. split; [by right | by intros [-> | ?]].
Qed.

Lemma Map_set_keys_cases {V : Type} key (value : V) (m : list (string * V)) :
  (Map_set key value m).*1 = if bool_decide (key ∈ m.*1) then m.*1 else m.*1 ++ [key].
Proof.
  case_bool_decide as Hin.
  - apply Map_set_keys. by apply Map_get_keys.
  - rewrite Map_set_new; [by rewrite fmap_app |]. by apply Map_get_None_keys.
Qed.

Lemma fs_mkdirp_file p : forall root content,
  lookup_path p root = Some (File content) -> fs_mkdirp p root = Fail EEXIST.
Proof.
  unfold fs_mkdirp. induction p as [|name p IH]; intros root content Hp; simpl in *.
  - by injection Hp as ->.
  - destruct root as [s | entries]; [done |].
    destruct (entries !! name) as [child|] eqn:Hchild; [|done]. simpl in Hp.
    by rewrite (IH child content).
Qed.

(** X1: when [installPackage] throws, the installer is as it was before
    the call: no ledger entry has been set or changed. It throws either
    the usage error, with the feature disabled, or, for a package that is
    to be copied, an error of the file system for the vendor path or for
    the prefix path of the content. *)
Theorem installPackage_throw_keeps_ledger
    (pkg : Package) (fetchResult : FetchResult) (w w' : World) (e : exn) :
  installPackage pkg fetchResult w = (Throw e, w') ->
  this w' = this w
  /\ (enabled (this w) = false /\ e = UsageError featureDisabledMessage
      \/ enabled (this w) = true
         /\ isHardLink (this w) pkg = true
         /\ exists code path,
              e = FsError code path
              /\ path ∈ [getVendoredPackagePath (project (opts (this w))) pkg;
                         prefixPath fetchResult]).
Proof.
  intros Hthrow. destruct (enabled (this w)) eqn:Hon.
  2:{ unfold installPackage in Hthrow. unfold_m. simpl in Hthrow.
      rewrite Hon in Hthrow. simpl in Hthrow. injection Hthrow as <- <-.
      split; [done | by left]. }
  destruct (isHardLink (this w) pkg) eqn:Hlink.
  2:{ by rewrite installPackage_soft in Hthrow. }
  rewrite installPackage_hard in Hthrow by done.
  destruct (fs_mkdirp _ _) as [made | code].
  2:{ injection Hthrow as <- <-. split; [done | right].
      split; [done |]. split; [done |]. eexists code, _.
      split; [done | apply list_elem_of_here]. }
  destruct (lookup_path _ (contents _)) as [source|].
  2:{ injection Hthrow as <- <-. split; [done | right].
      split; [done |]. split; [done |]. eexists ENOENT, _.
      split; [done | apply list_elem_of_further, list_elem_of_here]. }
  destruct (fs_copy _ _ _) as [copied | code]; [done |].
  injection Hthrow as <- <-. split; [done | right].
  split; [done |]. split; [done |]. eexists code, _.
  split; [done | apply list_elem_of_here].
Qed.

(** X2: with the feature enabled and the decision "copy", a file standing
    where the package's vendor directory should be makes [installPackage]
    throw the [EEXIST] of [mkdir]; nothing is copied over the file, and the
    world, ledger and disk, is as it was. *)
Theorem installPackage_vendor_path_is_file
    (pkg : Package) (fetchResult : FetchResult) (w : World) (content : string) :
  enabled (this w) = true ->
  isHardLink (this w) pkg = true ->
  lookup_path (xfs_segments (getVendoredPackagePath (project (opts (this w))) pkg)) (xfs w)
    = Some (File content) ->
  installPackage pkg fetchResult w
  = (Throw (FsError EEXIST (getVendoredPackagePath (project (opts (this w))) pkg)), w).
Proof.
  intros Hon Hhard Hfile. rewrite installPackage_hard by done.
  by rewrite (fs_mkdirp_file _ _ _ Hfile).
Qed.

(** X3: with the feature enabled and the decision "copy", when the fetched
    content has nothing at the prefix path, [installPackage] throws [ENOENT]
    for that path after the vendor directory has been made: the directory
    stays on disk, the files that were there keep their bytes, and no
    ledger entry is set. *)
Theorem installPackage_missing_content
    (pkg : Package) (fetchResult : FetchResult) (w : World) (made : fsnode) :
  enabled (this w) = true ->
  isHardLink (this w) pkg = true ->
  lookup_path (path_segments SEP (prefixPath fetchResult)) (contents (packageFs fetchResult))
    = None ->
  fs_mkdirp (xfs_segments (getVendoredPackagePath (project (opts (this w))) pkg)) (xfs w)
    = Ok made ->
  installPackage pkg fetchResult w
  = (Throw (FsError ENOENT (prefixPath fetchResult)), {| this := this w; xfs := made |})
  /\ (exists entries,
        lookup_path (xfs_segments (getVendoredPackagePath (project (opts (this w))) pkg)) made
        = Some (Dir entries))
  /\ (forall q content,
        lookup_path q (xfs w) = Some (File content) ->
        lookup_path q made = Some (File content)).
Proof.
  intros Hon Hhard Hmissing Hmk. rewrite installPackage_hard by done.
  rewrite Hmk, Hmissing. split; [done |]. split.
  - destruct (fs_mkdirp_lookup _ _ _ Hmk) as (entries & Hdir & _). by exists entries.
  - intros q content. by apply (fs_mkdirp_keeps _ _ _ _ _ Hmk).
Qed.

(** X4: when [installPackage] returns, it returns no build directive, the
    ledger holds under the package's identity a fresh entry at the returned
    location, every entry under another key is as it was, and the keys are
    those there were, in their order, with the identity added at the end if
    it was not among them. *)
Theorem installPackage_records
    (pkg : Package) (fetchResult : FetchResult) (w w' : World) (r : InstallPackageResult) :
  installPackage pkg fetchResult w = (Return r, w') ->
  buildDirective r = None
  /\ Map_get (locatorHash pkg) (dependencies (this w'))
     = Some {| packageLocator := pkg;
               packageLocation := installedLocation r;
               packageDependencies := ∅ |}
  /\ (forall key, key <> locatorHash pkg ->
        Map_get key (dependencies (this w')) = Map_get key (dependencies (this w)))
  /\ (dependencies (this w')).*1
     = (if bool_decide (locatorHash pkg ∈ (dependencies (this w)).*1)
        then (dependencies (this w)).*1
        else (dependencies (this w)).*1 ++ [locatorHash pkg]).
Proof.
  intros Hinstall.
  assert (buildDirective r = None) as Hbuild.
  { destruct (enabled (this w)) eqn:Hon.
    2:{ unfold installPackage in Hinstall. unfold_m. simpl in Hinstall.
        by rewrite Hon in Hinstall. }
    destruct (isHardLink (this w) pkg) eqn:Hlink.
    - rewrite installPackage_hard in Hinstall by done.
      destruct (fs_mkdirp _ _); [|done].
      destruct (lookup_path _ (contents _)); [|done].
      destruct (fs_copy _ _ _); [|done]. by injection Hinstall as <- _.
    - rewrite installPackage_soft in Hinstall by done. by injection Hinstall as <- _. }
  apply installPackage_returned in Hinstall as [-> _]. simpl.
  split; [done |]. split; [apply Map_get_set_eq |]. split.
  - intros key Hkey. by apply Map_get_set_ne.
  - apply Map_set_keys_cases.
Qed.


(** *** Attaching: lists, order and calls for other packages *)

Lemma Map_set_comm {V : Type} key1 key2 (value1 value2 : V) (m : list (string * V)) :
  key1 <> key2 ->
  is_Some (Map_get key1 m) \/ is_Some (Map_get key2 m) ->
  Map_set key1 value1 (Map_set key2 value2 m) = Map_set key2 value2 (Map_set key1 value1 m).
Proof.
  intros Hne. induction m as [|[k v] m IH]; simpl.
  - by intros [[? ?] | [? ?]].
  - intros Hsome. destruct (decide (k = key1)) as [-> | Hk1].
    + rewrite (bool_decide_false (key1 = key2)), (bool_decide_true (key1 = key1)) by done.
      simpl. rewrite (bool_decide_true (key1 = key1)) by done.
      by rewrite (bool_decide_false (key1 = key2)) by done.
    + rewrite (bool_decide_false (k = key1)) in * by done.
      destruct (decide (k = key2)) as [-> | Hk2].
      * rewrite (bool_decide_true (key2 = key2)) by done. simpl.
        rewrite (bool_decide_false (key2 = key1)), (bool_decide_true (key2 = key2)) by done.
        done.
      * rewrite (bool_decide_false (k = key2)) in * by done. simpl.
        rewrite (bool_decide_false (k = key1)), (bool_decide_false (k = key2)) by done.
        by rewrite IH.
Qed.

(** What [attachInternalDependencies] does for a registered locator. *)
Lemma attachInternalDependencies_registered
    (locator : Locator) (deps : list (Descriptor * Locator)) (w : World) (entry : Entry) :
  Map_get (locatorHash locator) (dependencies (this w)) = Some entry ->
  attachInternalDependencies locator deps w
  = (Return tt,
     {| this := {| opts := opts (this w);
                   enabled := enabled (this w);
                   dependencies :=
                     Map_set (locatorHash locator)
                       {| packageLocator := packageLocator entry;
                          packageLocation := packageLocation entry;
                          packageDependencies :=
                            packageDependencies entry
                              ∪ list_to_set ((fun d => locatorHash d.2) <$> deps) |}
                       (dependencies (this w)) |};
        xfs := xfs w |}).
Proof.
  intros Hget. unfold attachInternalDependencies. unfold_m. simpl.
  by rewrite Hget, add_all_union.
Qed.

Lemma attachInternalDependencies_unregistered
    (locator : Locator) (deps : list (Descriptor * Locator)) (w : World) :
  Map_get (locatorHash locator) (dependencies (this w)) = None ->
  attachInternalDependencies locator deps w
  = (Throw (JsError (unregisteredMessage (this w) locator)), w).
Proof.
  intros Hget. unfold attachInternalDependencies. unfold_m. simpl. by rewrite Hget.
Qed.

(** X5: attaching a list of dependencies and then another to the same
    locator is attaching the two lists at once, also when the locator is
    not registered and the first call throws; and for a registered locator
    attaching no dependency changes nothing. *)
Theorem attachInternalDependencies_app
    (locator : Locator) (deps1 deps2 : list (Descriptor * Locator)) (w : World) :
  (attachInternalDependencies locator deps1;; attachInternalDependencies locator deps2) w
  = attachInternalDependencies locator (deps1 ++ deps2) w
  /\ (is_Some (Map_get (locatorHash locator) (dependencies (this w))) ->
      attachInternalDependencies locator [] w = (Return tt, w)).
Proof.
  destruct (Map_get (locatorHash locator) (dependencies (this w))) as [entry|] eqn:Hget.
  - split.
    + unfold mbind at 1, M_bind at 1.
      rewrite (attachInternalDependencies_registered _ deps1 _ _ Hget).
      erewrite attachInternalDependencies_registered
        by (simpl; apply Map_get_set_eq).
      rewrite (attachInternalDependencies_registered _ (deps1 ++ deps2) _ _ Hget).
      simpl. rewrite Map_set_set, fmap_app, list_to_set_app_L.
      by rewrite (assoc_L (∪)).
    + intros _. rewrite (attachInternalDependencies_registered _ [] _ _ Hget).
      simpl. rewrite union_empty_r_L.
      rewrite Map_set_same by (rewrite Hget; by destruct entry).
      by destruct w as [[? ? ?] ?].
  - split; [|by intros [? ?]].
    unfold mbind at 1, M_bind at 1.
    by rewrite !attachInternalDependencies_unregistered.
Qed.

(** X6: only the set of the dependencies' identities counts: two lists of
    dependencies with the same identities, in whatever order and however
    often, have the same effect. *)
Theorem attachInternalDependencies_set
    (locator : Locator) (deps1 deps2 : list (Descriptor * Locator)) (w : World) :
  (forall identity,
     identity ∈ ((fun d => locatorHash d.2) <$> deps1)
     <-> identity ∈ ((fun d => locatorHash d.2) <$> deps2)) ->
  attachInternalDependencies locator deps1 w = attachInternalDependencies locator deps2 w.
Proof.
  intros Hsame.
  destruct (Map_get (locatorHash locator) (dependencies (this w))) as [entry|] eqn:Hget.
  - rewrite !(attachInternalDependencies_registered _ _ _ _ Hget).
    replace (list_to_set ((fun d => locatorHash d.2) <$> deps1) : gset string)
      with (list_to_set ((fun d => locatorHash d.2) <$> deps2) : gset string); [done |].
    apply set_eq. intros identity. rewrite !elem_of_list_to_set. symmetry. apply Hsame.
  - by rewrite !attachInternalDependencies_unregistered.
Qed.

(** X7: for two registered locators the two calls of
    [attachInternalDependencies] can be made in either order: the ledger
    is the same, entries and order of the keys. *)
Theorem attachInternalDependencies_comm
    (locator1 locator2 : Locator) (deps1 deps2 : list (Descriptor * Locator)) (w : World) :
  is_Some (Map_get (locatorHash locator1) (dependencies (this w))) ->
  is_Some (Map_get (locatorHash locator2) (dependencies (this w))) ->
  (attachInternalDependencies locator1 deps1;; attachInternalDependencies locator2 deps2) w
  = (attachInternalDependencies locator2 deps2;; attachInternalDependencies locator1 deps1) w.
Proof.
  intros [entry1 Hget1] [entry2 Hget2].
  unfold mbind, M_bind.
  rewrite (attachInternalDependencies_registered _ deps1 _ _ Hget1).
  rewrite (attachInternalDependencies_registered _ deps2 _ _ Hget2).
  destruct (decide (locatorHash locator1 = locatorHash locator2)) as [Heq | Hne].
  - assert (entry2 = entry1) as -> by (rewrite Heq in Hget1; congruence).
    erewrite (attachInternalDependencies_registered locator2)
      by (simpl; rewrite Heq; apply Map_get_set_eq).
    erewrite (attachInternalDependencies_registered locator1)
      by (simpl; rewrite <- Heq; apply Map_get_set_eq).
    simpl. rewrite Heq, !Map_set_set.
    by rewrite <- !(assoc_L (∪)), (comm_L (∪) (list_to_set _) (list_to_set _)).
  - erewrite (attachInternalDependencies_registered locator2)
      by (simpl; by rewrite Map_get_set_ne).
    erewrite (attachInternalDependencies_registered locator1)
      by (simpl; by rewrite Map_get_set_ne).
    simpl. rewrite Map_set_comm; [done | done |]. left. by eexists.
Qed.


(** *** Runs: what no call changes, and what the ledger holds *)

(** The installer after a call, however the call ends: as it was, or with
    the one entry the call has set. *)
Lemma perform_this (c : Call) (w : World) :
  this (perform c w).2 = this w
  \/ (exists pkg fetchResult location,
        c = CallInstallPackage pkg fetchResult
        /\ (perform c w).1 = Return tt
        /\ this (perform c w).2
           = {| opts := opts (this w);
                enabled := enabled (this w);
                dependencies :=
                  Map_set (locatorHash pkg)
                    {| packageLocator := pkg;
                       packageLocation := location;
                       packageDependencies := ∅ |}
                    (dependencies (this w)) |})
  \/ (exists locator deps entry,
        c = CallAttachInternalDependencies locator deps
        /\ Map_get (locatorHash locator) (dependencies (this w)) = Some entry
        /\ this (perform c w).2
           = {| opts := opts (this w);
                enabled := enabled (this w);
                dependencies :=
                  Map_set (locatorHash locator)
                    {| packageLocator := packageLocator entry;
                       packageLocation := packageLocation entry;
                       packageDependencies :=
                         packageDependencies entry
                           ∪ list_to_set ((fun d => locatorHash d.2) <$> deps) |}
                    (dependencies (this w)) |}).
Proof.
  destruct c as [pkg fr | locator deps | |]; simpl.
  - unfold mbind, M_bind.
    destruct (installPackage pkg fr w) as [[r | e] w1] eqn:Hinstall; simpl.
    + right. left. exists pkg, fr, (installedLocation r). split; [done |]. split; [done |].
      by apply installPackage_returned in Hinstall as [-> _].
    + left. destruct (enabled (this w)) eqn:Hon.
      2:{ unfold installPackage in Hinstall. unfold_m. simpl in Hinstall.
          rewrite Hon in Hinstall. simpl in Hinstall. by injection Hinstall as _ <-. }
      destruct (isHardLink (this w) pkg) eqn:Hlink.
      * rewrite installPackage_hard in Hinstall by done.
        destruct (fs_mkdirp _ _); [|by injection Hinstall as _ <-].
        destruct (lookup_path _ (contents _)); [|by injection Hinstall as _ <-].
        destruct (fs_copy _ _ _); [done | by injection Hinstall as _ <-].
      * by rewrite installPackage_soft in Hinstall.
  - destruct (Map_get (locatorHash locator) (dependencies (this w))) as [entry|] eqn:Hget.
    + right. right. exists locator, deps, entry. split; [done |]. split; [done |].
      by rewrite (attachInternalDependencies_registered _ _ _ _ Hget).
    + left. by rewrite attachInternalDependencies_unregistered.
  - by left.
  - left. unfold mbind, M_bind. pose proof (finalizeInstall_this w) as Hthis.
    by destruct (finalizeInstall w) as [[r | e] w1].
Qed.

(** A run, however it ends, keeps what every call keeps. *)
Lemma run_invariant (P : DmInstaller -> Prop) :
  (forall c w, P (this w) -> P (this (perform c w).2)) ->
  forall calls w, P (this w) -> P (this (run calls w).2).
Proof.
  intros Hstep. induction calls as [|c calls IH]; intros w Hw; simpl; [done |].
  unfold mbind, M_bind. specialize (Hstep c w Hw).
  destruct (perform c w) as [[[] | e] w1]; simpl in *; [by apply IH | done].
Qed.

(** X8: the options and the feature flag the constructor has set are never
    assigned again: after any sequence of calls, however it ends, the
    installer has the options it was made with and the flag read from the
    configuration when it was made. *)
Theorem run_keeps_flag (o : LinkOptions) (calls : list Call) (disk : fsnode) :
  let w' := (run calls {| this := new_DmInstaller o; xfs := disk |}).2 in
  opts (this w') = o
  /\ enabled (this w') = dmLinker (configuration (project o)).
Proof.
  apply (run_invariant
           (fun this => opts this = o /\ enabled this = dmLinker (configuration (project o))));
    [|done].
  intros c w [Hopts Hon].
  destruct (perform_this c w)
    as [-> | [(pkg & fr & location & _ & _ & ->) | (locator & deps & entry & _ & _ & ->)]];
    done.
Qed.

Lemma ledger_keyed_set (this : DmInstaller) (entry : Entry) :
  ledger_keyed this ->
  ledger_keyed
    {| opts := opts this;
       enabled := enabled this;
       dependencies := Map_set (locatorHash (packageLocator entry)) entry (dependencies this) |}.
Proof.
  intros [Hnodup Hkeys]. split; simpl.
  - by apply Map_set_NoDup.
  - by apply Map_set_Forall.
Qed.

(** X9: after any sequence of calls on a new installer, however it ends,
    the ledger has one entry per key, and every entry is filed under the
    identity of its own locator. *)
Theorem run_ledger_keyed (o : LinkOptions) (calls : list Call) (disk : fsnode) :
  ledger_keyed (this (run calls {| this := new_DmInstaller o; xfs := disk |}).2).
Proof.
  apply (run_invariant ledger_keyed); [|split; constructor].
  intros c w Hw.
  destruct (perform_this c w)
    as [-> | [(pkg & fr & location & _ & _ & ->) | (locator & deps & entry & _ & Hget & ->)]].
  - done.
  - apply (ledger_keyed_set (this w)
             {| packageLocator := pkg; packageLocation := location;
                packageDependencies := ∅ |} Hw).
  - destruct Hw as [Hnodup Hkeys].
    pose proof (Map_get_Forall _ _ _ _ Hkeys Hget) as Hkey. simpl in Hkey. rewrite Hkey.
    by apply (ledger_keyed_set (this w)
                {| packageLocator := packageLocator entry;
                   packageLocation := packageLocation entry;
                   packageDependencies := _ |}).
Qed.


(** X10: at the end of a run in which every call returned, the keys of the
    ledger are those it had and the identities of the packages placed, each
    once, in the order in which they were first placed: no other call adds
    a key, and none removes or moves one. *)
Theorem run_keys (calls : list Call) : forall (w w' : World),
  run calls w = (Return tt, w') ->
  (dependencies (this w')).*1
  = keys_after (placed_identities calls) (dependencies (this w)).*1.
Proof.
  induction calls as [|c calls IH]; intros w w' Hrun; simpl in *.
  - by injection Hrun as <-.
  - unfold mbind, M_bind in Hrun.
    destruct (perform c w) as [[[] | e] w1] eqn:Hcall; [|done].
    rewrite (IH w1 w' Hrun). clear IH Hrun.
    destruct c as [pkg fr | locator deps | |]; simpl in *.
    + unfold mbind, M_bind in Hcall.
      destruct (installPackage pkg fr w) as [[r | e] w2] eqn:Hinstall; [|done].
      injection Hcall as <-. apply installPackage_returned in Hinstall as [-> _].
      simpl. by rewrite Map_set_keys_cases.
    + destruct (Map_get (locatorHash locator) (dependencies (this w))) as [entry|] eqn:Hget.
      * rewrite (attachInternalDependencies_registered _ _ _ _ Hget) in Hcall.
        injection Hcall as <-. simpl. rewrite Map_set_keys; [done | by eexists].
      * by rewrite attachInternalDependencies_unregistered in Hcall.
    + by injection Hcall as <-.
    + unfold mbind, M_bind in Hcall. pose proof (finalizeInstall_this w) as Hthis.
      destruct (finalizeInstall w) as [[r | e] w2]; [|done].
      injection Hcall as <-. simpl in Hthis. by rewrite Hthis.
Qed.

Lemma run_cons_end (c : Call) (calls : list Call) (w : World) :
  (run (c :: calls) w).2 = (run calls (perform c w).2).2
  \/ (run (c :: calls) w).2 = (perform c w).2.
Proof.
  simpl. unfold mbind, M_bind. destruct (perform c w) as [[[] | e] w1]; [by left | by right].
Qed.

Lemma run_dependencies_from (calls : list Call) : forall (w : World) key entry identity,
  Map_get key (dependencies (this (run calls w).2)) = Some entry ->
  identity ∈ packageDependencies entry ->
  (exists held,
     Map_get key (dependencies (this w)) = Some held
     /\ identity ∈ packageDependencies held)
  \/ (exists locator deps dependency,
        CallAttachInternalDependencies locator deps ∈ calls
        /\ locatorHash locator = key
        /\ dependency ∈ deps
        /\ locatorHash dependency.2 = identity).
Proof.
  induction calls as [|c calls IH]; intros w key entry identity Hget Hin.
  - left. by exists entry.
  - assert ((exists held,
               Map_get key (dependencies (this (perform c w).2)) = Some held
               /\ identity ∈ packageDependencies held)
            \/ (exists locator deps dependency,
                  CallAttachInternalDependencies locator deps ∈ calls
                  /\ locatorHash locator = key
                  /\ dependency ∈ deps
                  /\ locatorHash dependency.2 = identity)) as [Hheld | Hlater].
    { destruct (run_cons_end c calls w) as [Hend | Hend]; rewrite Hend in Hget.
      - by eapply IH.
      - left. by exists entry. }
    2:{ right. destruct Hlater as (locator & deps & dependency & Hcall & Hrest).
        exists locator, deps, dependency. split; [by apply list_elem_of_further | done]. }
    destruct Hheld as (held & Hheld & Hidentity).
    destruct (perform_this c w)
      as [Hthis | [(pkg & fr & location & -> & _ & Hthis)
                  | (locator & deps & found & -> & Hfound & Hthis)]];
      rewrite Hthis in Hheld; simpl in Hheld.
    + left. by exists held.
    + destruct (decide (key = locatorHash pkg)) as [-> | Hne].
      * rewrite Map_get_set_eq in Hheld. injection Hheld as <-.
        by apply elem_of_empty in Hidentity.
      * rewrite Map_get_set_ne in Hheld by done. left. by exists held.
    + destruct (decide (key = locatorHash locator)) as [-> | Hne].
      * rewrite Map_get_set_eq in Hheld. injection Hheld as <-. simpl in Hidentity.
        apply elem_of_union in Hidentity as [Hold | Hnew]; [left; by exists found |].
        right. apply elem_of_list_to_set, list_elem_of_fmap in Hnew as (dependency & -> & Hdep).
        exists locator, deps, dependency. split; [apply list_elem_of_here | done].
      * rewrite Map_get_set_ne in Hheld by done. left. by exists held.
Qed.

(** X11: after any sequence of calls on a new installer, however it ends,
    every identity in the dependency set of a ledger entry was given by a
    call of [attachInternalDependencies] for that entry's key: no other
    method adds to the sets. *)
Theorem run_dependencies_attached
    (o : LinkOptions) (calls : list Call) (disk : fsnode) key entry identity :
  Map_get key (dependencies (this (run calls {| this := new_DmInstaller o; xfs := disk |}).2))
    = Some entry ->
  identity ∈ packageDependencies entry ->
  exists locator deps dependency,
    CallAttachInternalDependencies locator deps ∈ calls
    /\ locatorHash locator = key
    /\ dependency ∈ deps
    /\ locatorHash dependency.2 = identity.
Proof.
  intros Hget Hin.
  by destruct (run_dependencies_from calls _ _ _ _ Hget Hin) as [(held & Hheld & _) | Hcall].
Qed.


(** *** A disabled installer *)

Lemma fs_remove_files p q (n : fsnode) content :
  lookup_path q (fs_remove p n) = Some (File content) ->
  lookup_path q n = Some (File content).
Proof.
  intros Hq. destruct p as [|name p]; [by destruct n |].
  destruct (decide ((name :: p) `prefix_of` q)) as [[below ->] | Hout].
  - by rewrite fs_remove_below in Hq.
  - pose proof (fs_remove_elsewhere (name :: p) q n Hout) as Hstat.
    unfold stat in Hstat. rewrite Hq in Hstat.
    destruct (lookup_path q n) as [[c | entries]|]; by inversion Hstat.
Qed.

Lemma perform_disabled (c : Call) (w : World) :
  enabled (this w) = false ->
  dependencies (this w) = [] ->
  this (perform c w).2 = this w
  /\ (xfs (perform c w).2 = xfs w
      \/ xfs (perform c w).2
         = fs_remove (xfs_segments (getVendorPath (project (opts (this w))))) (xfs w)).
Proof.
  intros Hoff Hempty. destruct c as [pkg fr | locator deps | |]; simpl.
  - unfold installPackage. unfold_m. simpl. rewrite Hoff. simpl. by split; [|left].
  - rewrite attachInternalDependencies_unregistered by by rewrite Hempty.
    by split; [|left].
  - by split; [|left].
  - unfold finalizeInstall, xfs_removeSync. unfold_m. simpl. rewrite Hoff. simpl.
    by split; [|right].
Qed.

Lemma run_disabled_from (calls : list Call) : forall (w : World),
  enabled (this w) = false ->
  dependencies (this w) = [] ->
  this (run calls w).2 = this w
  /\ (forall q content,
        lookup_path q (xfs (run calls w).2) = Some (File content) ->
        lookup_path q (xfs w) = Some (File content))
  /\ (forall q,
        ~ xfs_segments (getVendorPath (project (opts (this w)))) `prefix_of` q ->
        stat q (xfs (run calls w).2) = stat q (xfs w)).
Proof.
  induction calls as [|c calls IH]; intros w Hoff Hempty; [done |].
  destruct (perform_disabled c w Hoff Hempty) as [Hthis Hdisk].
  assert (forall q content,
            lookup_path q (xfs (perform c w).2) = Some (File content) ->
            lookup_path q (xfs w) = Some (File content)) as Hfiles.
  { intros q content. destruct Hdisk as [-> | ->]; [done | apply fs_remove_files]. }
  assert (forall q,
            ~ xfs_segments (getVendorPath (project (opts (this w)))) `prefix_of` q ->
            stat q (xfs (perform c w).2) = stat q (xfs w)) as Hstat.
  { intros q Hout. destruct Hdisk as [-> | ->]; [done | by apply fs_remove_elsewhere]. }
  destruct (run_cons_end c calls w) as [-> | ->]; [|done].
  destruct (IH (perform c w).2) as (Hthis' & Hfiles' & Hstat'); [by rewrite Hthis..|].
  rewrite Hthis in *. split; [done |]. split.
  - intros q content Hq. by apply Hfiles, Hfiles'.
  - intros q Hout. by rewrite Hstat', Hstat.
Qed.

(** X12: an installer made with the feature disabled never records a
    package and never writes: after any sequence of calls, however it ends,
    the installer is as the constructor left it, every file on disk was
    there before with the same bytes, and what is not below the vendor
    root is as it was. *)
Theorem run_disabled (o : LinkOptions) (calls : list Call) (disk : fsnode) :
  dmLinker (configuration (project o)) = false ->
  let w' := (run calls {| this := new_DmInstaller o; xfs := disk |}).2 in
  this w' = new_DmInstaller o
  /\ (forall q content,
        lookup_path q (xfs w') = Some (File content) ->
        lookup_path q disk = Some (File content))
  /\ (forall q,
        ~ xfs_segments (getVendorPath (project o)) `prefix_of` q ->
        stat q (xfs w') = stat q disk).
Proof.
  intros Hoff.
  apply (run_disabled_from calls {| this := new_DmInstaller o; xfs := disk |}); done.
Qed.


(** *** Finalizing with the feature enabled *)

Lemma fs_write_keeps p text : forall (n n' : fsnode) q content,
  fs_write p text n = Ok n' ->
  q <> p ->
  lookup_path q n = Some (File content) ->
  lookup_path q n' = Some (File content).
Proof.
  induction p as [|name p IH]; intros [s | entries] n' q content Hw Hne Hq;
    simpl in Hw; try done.
  destruct q as [|m q]; [done |]. simpl in Hq.
  destruct p as [|name' p].
  - assert (n' = Dir (<[name := File text]> entries)) as ->.
    { destruct (entries !! name) as [[?|?]|]; by inversion Hw. }
    simpl. destruct (decide (name = m)) as [-> | Hm]; [|by rewrite lookup_insert_ne].
    exfalso. destruct q as [|m' q]; [done |].
    destruct (entries !! m) as [[?|?]|]; done.
  - destruct (entries !! name) as [child|] eqn:Hchild; [|done].
    destruct (fs_write (name' :: p) text child) as [child'|] eqn:Hwrite; [|done].
    injection Hw as <-. simpl.
    destruct (decide (name = m)) as [-> | Hm]; [|by rewrite lookup_insert_ne].
    rewrite lookup_insert_eq. simpl. rewrite Hchild in Hq. simpl in Hq.
    eapply IH; [done | congruence | done].
Qed.

Lemma fs_write_dirs p text : forall (n n' : fsnode) q,
  fs_write p text n = Ok n' -> stat q n' = Some IsDir <-> stat q n = Some IsDir.
Proof.
  unfold stat.
  induction p as [|name p IH]; intros [s | entries] n' q Hw; simpl in Hw; try done.
  destruct p as [|name' p].
  - assert (n' = Dir (<[name := File text]> entries)
            /\ forall present, entries !! name <> Some (Dir present)) as [-> Hnodir].
    { destruct (entries !! name) as [[?|?]|]; by inversion Hw. }
    destruct q as [|m q]; [done |].
    simpl. destruct (decide (name = m)) as [-> | Hm]; [|by rewrite lookup_insert_ne].
    rewrite lookup_insert_eq. simpl.
    destruct (entries !! m) as [[s | present]|]; simpl.
    + by destruct q.
    + by destruct (Hnodir present).
    + by destruct q.
  - destruct (entries !! name) as [child|] eqn:Hchild; [|done].
    destruct (fs_write (name' :: p) text child) as [child'|] eqn:Hwrite; [|done].
    injection Hw as <-. destruct q as [|m q]; [done |]. simpl.
    destruct (decide (name = m)) as [-> | Hm]; [|by rewrite lookup_insert_ne].
    rewrite lookup_insert_eq, Hchild. simpl. by apply IH.
Qed.

Lemma fs_write_no_parent parent name text : forall (n : fsnode),
  lookup_path parent n = None ->
  fs_write (parent ++ [name]) text n = Fail ENOENT
  \/ fs_write (parent ++ [name]) text n = Fail ENOTDIR.
Proof.
  induction parent as [|m parent IH]; intros n Hparent; [done |].
  destruct n as [s | entries]; [by right |].
  simpl in Hparent.
  assert (fs_write ((m :: parent) ++ [name]) text (Dir entries)
          = match entries !! m with
            | Some child =>
                match fs_write (parent ++ [name]) text child with
                | Ok child' => Ok (Dir (<[m := child']> entries))
                | Fail code => Fail code
                end
            | None => Fail ENOENT
            end) as -> by by destruct parent.
  destruct (entries !! m) as [child|]; [|by left].
  simpl in Hparent. by destruct (IH child Hparent) as [-> | ->]; [left | right].
Qed.

(** X13: [writePathMap] makes no directory: whatever its outcome, the
    directories on disk are those that were there; and when there is
    nothing at the directory that is to hold the path map, it throws the
    error of the write and leaves the world as it was. *)
Theorem writePathMap_no_mkdir (w : World) :
  (forall q, stat q (xfs (writePathMap w).2) = Some IsDir <-> stat q (xfs w) = Some IsDir)
  /\ (forall parent name,
        xfs_segments (getPathmapPath (project (opts (this w)))) = parent ++ [name] ->
        lookup_path parent (xfs w) = None ->
        exists code,
          writePathMap w = (Throw (FsError code (getPathmapPath (project (opts (this w))))), w)
          /\ (code = ENOENT \/ code = ENOTDIR)).
Proof.
  unfold writePathMap, xfs_writeFilePromise. unfold_m. simpl. split.
  - intros q. destruct (fs_write _ _ _) as [written | code] eqn:Hwrite; [|done]. simpl.
    by eapply fs_write_dirs.
  - intros parent name -> Hparent.
    destruct (fs_write_no_parent parent name
                (JSON_stringify (pathMapData (this w)) +:+ nl) (xfs w) Hparent) as [-> | ->].
    + exists ENOENT. split; [done | by left].
    + exists ENOTDIR. split; [done | by right].
Qed.

Lemma writeIncludes_keeps (w : World) q content :
  q <> xfs_segments (getIncludePath (project (opts (this w)))) ->
  lookup_path q (xfs w) = Some (File content) ->
  lookup_path q (xfs (writeIncludes w).2) = Some (File content).
Proof.
  intros Hne Hq. rewrite writeIncludes_run.
  unfold xfs_mkdirPromise, xfs_writeFilePromise. unfold_m. simpl.
  destruct (fs_mkdirp _ _) as [made | code] eqn:Hmk; [|done]. simpl.
  pose proof (fs_mkdirp_keeps _ _ _ _ _ Hmk Hq) as Hmade.
  destruct (fs_write _ _ _) as [written | code] eqn:Hwrite; [|done]. simpl.
  by eapply fs_write_keeps.
Qed.

Lemma writePathMap_keeps (w : World) q content :
  q <> xfs_segments (getPathmapPath (project (opts (this w)))) ->
  lookup_path q (xfs w) = Some (File content) ->
  lookup_path q (xfs (writePathMap w).2) = Some (File content).
Proof.
  intros Hne Hq. unfold writePathMap, xfs_writeFilePromise. unfold_m. simpl.
  destruct (fs_write _ _ _) as [written | code] eqn:Hwrite; [|done]. simpl.
  by eapply fs_write_keeps.
Qed.

(** With the feature enabled [finalizeInstall] is the two writes, one
    after the other. *)
Lemma finalizeInstall_on (w : World) :
  enabled (this w) = true ->
  finalizeInstall w
  = match writeIncludes w with
    | (Return _, w1) =>
        match writePathMap w1 with
        | (Return _, w2) => (Return [], w2)
        | (Throw e, w2) => (Throw e, w2)
        end
    | (Throw e, w1) => (Throw e, w1)
    end.
Proof.
  intros Hon. unfold finalizeInstall. unfold mbind at 1, M_bind at 1. unfold getThis at 1.
  rewrite Hon. simpl. unfold mbind, M_bind.
  destruct (writeIncludes w) as [[[] | e] w1]; [|done].
  by destruct (writePathMap w1) as [[[] | e] w2].
Qed.

(** X14: with the feature enabled, when [finalizeInstall] returns it
    returns the empty object and has left the installer as it was; the
    path map file holds the JSON text of the map of the ledger and a
    newline, and the include file, when it is another file, holds the
    banner and the include lines made from the ledger and the disk as they
    were before the call. *)
Theorem finalizeInstall_enabled (w w' : World) (r : FinalizeInstallData) :
  enabled (this w) = true ->
  finalizeInstall w = (Return r, w') ->
  let includePath := getIncludePath (project (opts (this w))) in
  let pathmapFile := getPathmapPath (project (opts (this w))) in
  let contribution (entry : Entry) : string :=
    if Boolean (lookup_path (xfs_segments (ppath.join [packageLocation entry; "includes.dm"]))
                            (xfs w))
    then "#include " +:+ dq
         +:+ ppath.relative process_cwd (ppath.dirname includePath)
               (ppath.join [packageLocation entry; "includes.dm"])
         +:+ dq +:+ nl
    else EmptyString in
  r = []
  /\ this w' = this w
  /\ lookup_path (xfs_segments pathmapFile) (xfs w')
     = Some (File (JSON_stringify (pathMapData (this w)) +:+ nl))
  /\ (xfs_segments includePath <> xfs_segments pathmapFile ->
      lookup_path (xfs_segments includePath) (xfs w')
      = Some (File (includesBanner
                    +:+ concat_text ((fun item => contribution item.2)
                                       <$> dependencies (this w))))).
Proof.
  intros Hon Hfinal includePath pathmapFile contribution.
  rewrite finalizeInstall_on in Hfinal by done.
  pose proof (writeIncludes_this w) as Hthis1.
  pose proof (writeIncludes_run w) as Hinc. cbv zeta in Hinc.
  fold includePath contribution in Hinc.
  destruct (writeIncludes w) as [[[] | e] w1]; [|done]. simpl in Hthis1.
  assert (lookup_path (xfs_segments includePath) (xfs w1)
          = Some (File (includesBanner
                        +:+ concat_text ((fun item => contribution item.2)
                                           <$> dependencies (this w))))) as Hfile.
  { symmetry in Hinc. unfold xfs_mkdirPromise, xfs_writeFilePromise in Hinc.
    unfold_m. simpl in Hinc.
    destruct (fs_mkdirp _ _) as [made | code]; [|done]. simpl in Hinc.
    destruct (fs_write _ _ _) as [written | code] eqn:Hwrite; [|done].
    injection Hinc as <-. simpl. by eapply fs_write_lookup. }
  pose proof (writePathMap_keeps w1 (xfs_segments includePath)) as Hkeeps.
  unfold writePathMap, xfs_writeFilePromise in *. unfold_m. simpl in *.
  rewrite Hthis1 in *. fold pathmapFile in Hfinal, Hkeeps.
  destruct (fs_write _ _ _) as [written | code] eqn:Hwrite; [|done].
  injection Hfinal as <- <-. simpl in *.
  split; [done |]. split; [done |]. split; [by eapply fs_write_lookup |].
  intros Hne. by apply Hkeeps.
Qed.

(** X15: with the feature enabled, however [finalizeInstall] ends, every
    file on disk other than the include file and the path map file keeps
    its bytes. *)
Theorem finalizeInstall_keeps_other_files (w : World) q content :
  enabled (this w) = true ->
  q <> xfs_segments (getIncludePath (project (opts (this w)))) ->
  q <> xfs_segments (getPathmapPath (project (opts (this w)))) ->
  lookup_path q (xfs w) = Some (File content) ->
  lookup_path q (xfs (finalizeInstall w).2) = Some (File content).
Proof.
  intros Hon Hinc Hmap Hq. rewrite finalizeInstall_on by done.
  pose proof (writeIncludes_this w) as Hthis1.
  pose proof (writeIncludes_keeps w q content Hinc Hq) as Hq1.
  destruct (writeIncludes w) as [[[] | e] w1]; [|done]. simpl in *.
  rewrite <- Hthis1 in Hmap.
  pose proof (writePathMap_keeps w1 q content Hmap Hq1) as Hq2.
  by destruct (writePathMap w1) as [[[] | e] w2].
Qed.

(** X16: with the feature enabled, when [finalizeInstall] throws it throws
    an error of the file system for one of its three paths: the directory
    of the include file, the include file or the path map file; the
    installer is left as it was. *)
Theorem finalizeInstall_throws (w w' : World) (e : exn) :
  enabled (this w) = true ->
  finalizeInstall w = (Throw e, w') ->
  let includePath := getIncludePath (project (opts (this w))) in
  this w' = this w
  /\ exists code path,
       e = FsError code path
       /\ path ∈ [ppath.dirname includePath; includePath;
                  getPathmapPath (project (opts (this w)))].
Proof.
  intros Hon Hthrow includePath.
  rewrite finalizeInstall_on in Hthrow by done.
  rewrite writeIncludes_run in Hthrow. fold includePath in Hthrow.
  unfold writePathMap, xfs_mkdirPromise, xfs_writeFilePromise in *. unfold_m. simpl in *.
  destruct (fs_mkdirp _ _) as [made | code].
  2:{ injection Hthrow as <- <-. split; [done |]. exists code, (ppath.dirname includePath).
      split; [done | apply list_elem_of_here]. }
  simpl in *. destruct (fs_write _ _ made) as [written | code].
  2:{ injection Hthrow as <- <-. split; [done |]. exists code, includePath.
      split; [done | apply list_elem_of_further, list_elem_of_here]. }
  simpl in *. destruct (fs_write _ _ written) as [written' | code]; [done |].
  injection Hthrow as <- <-. split; [done |]. eexists code, _. split; [done |].
  do 2 apply list_elem_of_further. apply list_elem_of_here.
Qed.

(** *** The keys of the path map *)

Example array_index_ex :
  map array_index ["0"; "7"; "10"; "4294967294"; "4294967295"; "01"; "-1"; "1.5"; "a1";
                   EmptyString]
  = [Some 0%N; Some 7%N; Some 10%N; Some 4294967294%N; None; None; None; None; None; None].
Proof. vm_compute. reflexivity. Qed.

Example Object_set_ex :
  foldl (fun data '(key, value) => Object_set key value data) []
        [("b", "1"); ("10", "2"); ("a", "3"); ("9", "4"); ("__proto__", "5"); ("01", "6");
         ("b", "7"); ("9", "8")]
  = [("9", "8"); ("10", "2"); ("b", "7"); ("a", "3"); ("01", "6")].
Proof. vm_compute. reflexivity. Qed.

Lemma key_before_asym (a b : string) : key_before a b = true -> key_before b a = false.
Proof.
  unfold key_before. destruct (array_index a) as [i|], (array_index b) as [j|]; try done.
  rewrite N.ltb_lt, N.ltb_ge. lia.
Qed.

(** What is in order after a key is in order after a key listed before
    that one. *)
Lemma key_before_in_order (key k x : string) :
  key_before key k = true -> listed_in_order k x -> listed_in_order key x.
Proof.
  unfold listed_in_order, key_before.
  destruct (array_index key) as [i|], (array_index k) as [j|], (array_index x) as [m|];
    try done.
  rewrite N.ltb_lt, !N.ltb_ge. lia.
Qed.

Lemma Object_put_keys key value (obj : list (string * string)) y :
  y ∈ (Object_put key value obj).*1 -> y = key \/ y ∈ obj.*1.
Proof.
  induction obj as [|[k v] obj IH]; csimpl.
  - intros ->%list_elem_of_singleton. by left.
  - case_bool_decide as Hk; csimpl.
    + subst k. intros [-> | Hy]%elem_of_cons; [by left | right; by apply list_elem_of_further].
    + destruct (key_before key k); csimpl.
      * intros [-> | Hy]%elem_of_cons; [by left | by right].
      * intros [-> | Hy]%elem_of_cons; [right; apply list_elem_of_here |].
        destruct (IH Hy) as [-> | Hin]; [by left | right; by apply list_elem_of_further].
Qed.

Lemma Object_put_sorted key value (obj : list (string * string)) :
  StronglySorted listed_in_order obj.*1 ->
  StronglySorted listed_in_order (Object_put key value obj).*1.
Proof.
  induction obj as [|[k v] obj IH]; csimpl; intros Hsorted.
  - by repeat constructor.
  - apply StronglySorted_inv in Hsorted as [Hobj Hk].
    case_bool_decide as Heq; csimpl; [subst k; by constructor |].
    destruct (key_before key k) eqn:Hbefore; csimpl.
    + constructor; [by constructor |]. constructor.
      * by apply key_before_asym.
      * eapply Forall_impl; [done |]. intros x. by apply key_before_in_order.
    + constructor; [by apply IH |]. apply Forall_forall. intros y Hy.
      destruct (Object_put_keys _ _ _ _ Hy) as [-> | Hin]; [done |].
      rewrite Forall_forall in Hk. by apply Hk.
Qed.

Lemma Object_put_permutation key value (obj : list (string * string)) :
  key ∉ obj.*1 -> (Object_put key value obj).*1 ≡ₚ obj.*1 ++ [key].
Proof.
  induction obj as [|[k v] obj IH]; csimpl; [done |].
  intros [Hne Hnot]%not_elem_of_cons.
  rewrite bool_decide_false by done.
  destruct (key_before key k); csimpl.
  - by rewrite (Permutation_app_comm (obj.*1) [key]), (Permutation_swap k key).
  - by rewrite IH.
Qed.

Lemma Object_put_names key value (obj : list (string * string)) :
  key ∉ obj.*1 ->
  filter (fun k => array_index k = None) (Object_put key value obj).*1
  = filter (fun k => array_index k = None) (obj.*1 ++ [key]).
Proof.
  induction obj as [|[k v] obj IH]; csimpl; [done |].
  intros [Hne Hnot]%not_elem_of_cons.
  rewrite bool_decide_false by done.
  destruct (key_before key k) eqn:Hbefore; csimpl.
  - assert (array_index key <> None) as Hindex.
    { unfold key_before in Hbefore. by destruct (array_index key). }
    rewrite (filter_cons_False _ key) by done.
    rewrite !(filter_cons _ k), filter_app.
    rewrite (filter_cons_False _ key), filter_nil by done. by rewrite app_nil_r.
  - rewrite !(filter_cons _ k). by rewrite IH.
Qed.

Lemma pathMapData_keys (root : PortablePath) (m : list (string * Entry)) :
  forall data : list (string * string),
    NoDup (data.*1 ++ m.*1) ->
    let keys :=
      (foldl (fun data '(locatorStr, entry) =>
                Object_set locatorStr
                  (ppath.relative process_cwd root (packageLocation entry)) data)
             data m).*1 in
    let ledger := data.*1 ++ filter (fun key => key <> "__proto__") m.*1 in
    keys ≡ₚ ledger
    /\ filter (fun key => array_index key = None) keys
       = filter (fun key => array_index key = None) ledger
    /\ (StronglySorted listed_in_order data.*1 -> StronglySorted listed_in_order keys).
Proof.
  induction m as [|[k e] m IH]; intros data Hnodup; csimpl in *.
  - rewrite filter_nil, app_nil_r. done.
  - unfold Object_set. case_bool_decide as Hproto.
    + rewrite filter_cons_False by (by intros ?). apply IH.
      apply NoDup_app in Hnodup as (Hdata & Hdisjoint & Hm).
      apply NoDup_cons in Hm as [_ Hm].
      apply NoDup_app. split; [done |]. split; [|done].
      intros key Hkey Hin. apply (Hdisjoint key Hkey). by apply list_elem_of_further.
    + rewrite filter_cons_True by done.
      assert (k ∉ data.*1) as Hnew.
      { apply NoDup_app in Hnodup as (_ & Hdisjoint & _).
        intros Hin. apply (Hdisjoint k Hin). apply list_elem_of_here. }
      set (value := ppath.relative process_cwd root (packageLocation e)).
      pose proof (Object_put_permutation k value data Hnew) as Hperm.
      destruct (IH (Object_put k value data)) as (Hkeys & Hnames & Hsorted).
      { rewrite Hperm, <- app_assoc. done. }
      split; [|split].
      * rewrite Hkeys, Hperm, <- app_assoc. done.
      * etrans; [apply Hnames |].
        rewrite !filter_app, Object_put_names, filter_app by done.
        rewrite <- app_assoc. f_equal.
        by rewrite <- filter_app.
      * intros Hdata. by apply Hsorted, Object_put_sorted.
Qed.

(** X17: when the ledger has no key twice, the keys of the object
    [writePathMap] writes are the keys of the ledger but for [__proto__],
    which the object does not take; they are listed as an object lists its
    keys: those that are array indices first, in ascending order, the
    others after them, in the ledger's order. Where no key is an array
    index, the keys are listed in the ledger's order. *)
Theorem pathMapData_ledger_keys (this : DmInstaller) :
  NoDup (dependencies this).*1 ->
  let keys := (pathMapData this).*1 in
  let ledger := filter (fun key => key <> "__proto__") (dependencies this).*1 in
  keys ≡ₚ ledger
  /\ StronglySorted listed_in_order keys
  /\ filter (fun key => array_index key = None) keys
     = filter (fun key => array_index key = None) ledger
  /\ (Forall (fun key => array_index key = None) ledger -> keys = ledger).
Proof.
  intros Hnodup keys ledger.
  destruct (pathMapData_keys (cwd (project (opts this))) (dependencies this) [])
    as (Hkeys & Hnames & Hsorted); [done |].
  fold (pathMapData this) in Hkeys, Hnames, Hsorted. fold keys in Hkeys, Hnames, Hsorted.
  simpl in Hkeys, Hnames. fold ledger in Hkeys, Hnames.
  split; [done |]. split; [apply Hsorted; constructor |]. split; [done |].
  intros Hledger.
  assert (forall l : list string,
            Forall (fun key => array_index key = None) l ->
            filter (fun key => array_index key = None) l = l) as Hall.
  { intros l Hl. induction Hl as [|x l Hx Hl IH]; [done |].
    by rewrite filter_cons_True, IH. }
  rewrite <- (Hall keys), <- (Hall ledger) by (done || by rewrite Hkeys). done.
Qed.

(** *** The directory of the include file *)

(** X18: unlike [writePathMap], [writeIncludes] makes the directory it
    writes into: when it returns, the directory of the include file is a
    directory on disk, whether or not it was there before; and however it
    ends, every file other than the include file keeps its bytes. *)
Theorem writeIncludes_makes_directory (w : World) :
  let includePath := getIncludePath (project (opts (this w))) in
  (forall w',
     writeIncludes w = (Return tt, w') ->
     stat (xfs_segments (ppath.dirname includePath)) (xfs w') = Some IsDir)
  /\ (forall q content,
        q <> xfs_segments includePath ->
        lookup_path q (xfs w) = Some (File content) ->
        lookup_path q (xfs (writeIncludes w).2) = Some (File content)).
Proof.
  intros includePath. split; [|apply writeIncludes_keeps].
  intros w'. rewrite writeIncludes_run. fold includePath.
  unfold xfs_mkdirPromise, xfs_writeFilePromise. unfold_m. simpl.
  destruct (fs_mkdirp _ _) as [made | code] eqn:Hmk; [|done]. simpl.
  destruct (fs_write _ _ _) as [written | code] eqn:Hwrite; [|done].
  intros [= <-]. simpl. rewrite (fs_write_dirs _ _ _ _ _ Hwrite).
  destruct (fs_mkdirp_lookup _ _ _ Hmk) as (entries & Hdir & _).
  unfold stat. by rewrite Hdir.
Qed.


(** *** Packages that differ in what the installer does not read *)

Lemma Map_set_alike {V W : Type} (f : V -> W) key (value1 value2 : V) (m : list (string * V)) :
  f value1 = f value2 ->
  (fun item => (item.1, f item.2)) <$> Map_set key value1 m
  = (fun item => (item.1, f item.2)) <$> Map_set key value2 m.
Proof.
  intros Hf. induction m as [|[k v] m IH]; csimpl.
  - by rewrite Hf.
  - case_bool_decide; csimpl; [by rewrite Hf | by rewrite IH].
Qed.

Lemma installPackage_disabled (pkg : Package) (fetchResult : FetchResult) (w : World) :
  enabled (this w) = false ->
  installPackage pkg fetchResult w = (Throw (UsageError featureDisabledMessage), w).
Proof. intros Hoff. unfold installPackage. unfold_m. simpl. by rewrite Hoff. Qed.

(** Two packages with the same link type and the same answer of the
    workspace lookup get the same decision; referenced in place they get
    the same result on the same disk, and with the same identity they get
    the same result, the same disk and the same placements in the ledger,
    whatever else of them differs; the entry set holds the package that
    was given. *)
Lemma installPackage_alike (pkg1 pkg2 : Package) (fetchResult : FetchResult) (w : World) :
  linkType pkg1 = linkType pkg2 ->
  Boolean (tryWorkspaceByLocator (project (opts (this w))) pkg1)
  = Boolean (tryWorkspaceByLocator (project (opts (this w))) pkg2) ->
  let run1 := installPackage pkg1 fetchResult w in
  let run2 := installPackage pkg2 fetchResult w in
  let placement (entry : Entry) := (packageLocation entry, packageDependencies entry) in
  isHardLink (this w) pkg1 = isHardLink (this w) pkg2
  /\ (isHardLink (this w) pkg1 = false -> run1.1 = run2.1 /\ xfs run1.2 = xfs run2.2)
  /\ (locatorHash pkg1 = locatorHash pkg2 ->
      run1.1 = run2.1
      /\ xfs run1.2 = xfs run2.2
      /\ (fun item => (item.1, placement item.2)) <$> dependencies (this run1.2)
         = (fun item => (item.1, placement item.2)) <$> dependencies (this run2.2)
      /\ (forall r,
            run1.1 = Return r ->
            Map_get (locatorHash pkg1) (dependencies (this run1.2))
            = Some {| packageLocator := pkg1;
                      packageLocation := installedLocation r;
                      packageDependencies := ∅ |}
            /\ Map_get (locatorHash pkg2) (dependencies (this run2.2))
               = Some {| packageLocator := pkg2;
                         packageLocation := installedLocation r;
                         packageDependencies := ∅ |})).
Proof.
  intros Hlink Hws run1 run2 placement. unfold run1, run2.
  assert (isHardLink (this w) pkg1 = isHardLink (this w) pkg2) as Hdecision.
  { unfold isHardLink. by rewrite Hlink, Hws. }
  split; [done |].
  destruct (enabled (this w)) eqn:Hon.
  2:{ rewrite !installPackage_disabled by done. done. }
  destruct (isHardLink (this w) pkg2) eqn:Hhard.
  - split; [by rewrite Hdecision |]. intros Hhash.
    rewrite !installPackage_hard by done. cbv zeta.
    assert (getVendoredPackagePath (project (opts (this w))) pkg1
            = getVendoredPackagePath (project (opts (this w))) pkg2) as ->.
    { unfold getVendoredPackagePath. by rewrite Hhash. }
    rewrite Hhash.
    destruct (fs_mkdirp _ _) as [made | code]; [|done].
    destruct (lookup_path _ (contents _)) as [source|]; [|done].
    destruct (fs_copy _ _ _) as [copied | code]; [|done]. simpl.
    split; [done |]. split; [done |]. split; [by apply Map_set_alike |].
    intros r [= <-]. by rewrite !Map_get_set_eq.
  - rewrite !installPackage_soft by done. cbv zeta. simpl.
    split; [done |]. intros Hhash. rewrite Hhash.
    split; [done |]. split; [done |]. split; [by apply Map_set_alike |].
    intros r [= <-]. by rewrite !Map_get_set_eq.
Qed.

End Installer.

Arguments CallInstallPackage {Descriptor} pkg fetchResult.
Arguments CallAttachInternalDependencies {Descriptor} locator deps.
Arguments CallAttachExternalDependents {Descriptor} locator dependentPaths.
Arguments CallFinalizeInstall {Descriptor}.

(** ** The virtual status of a package *)

(** C9: a package that is virtual and a package that is not are placed
    alike: with the same link type and the same answer of the workspace
    lookup, the decision [isHardLink] is the same, whatever
    [isVirtualLocator] answers for the one and for the other; referenced
    in place, the two get the same result on the same disk; and with the
    same identity, the two calls return the same location or throw the
    same error, leave the same disk, and leave ledgers with the same keys,
    locations and dependency sets, the entry holding the package that was
    placed. *)
Theorem installPackage_ignores_virtual
    (process_cwd : PortablePath) (isVirtual1 isVirtual2 : Locator -> bool)
    (sanitizeIdentity : string -> Filename)
    (pkg1 pkg2 : Package) (fetchResult : FetchResult) (w : World) :
  linkType pkg1 = linkType pkg2 ->
  Boolean (tryWorkspaceByLocator (project (opts (this w))) pkg1)
  = Boolean (tryWorkspaceByLocator (project (opts (this w))) pkg2) ->
  let run1 := installPackage process_cwd isVirtual1 sanitizeIdentity pkg1 fetchResult w in
  let run2 := installPackage process_cwd isVirtual2 sanitizeIdentity pkg2 fetchResult w in
  let placement (entry : Entry) := (packageLocation entry, packageDependencies entry) in
  isHardLink (this w) pkg1 = isHardLink (this w) pkg2
  /\ (isHardLink (this w) pkg1 = false -> run1.1 = run2.1 /\ xfs run1.2 = xfs run2.2)
  /\ (locatorHash pkg1 = locatorHash pkg2 ->
      run1.1 = run2.1
      /\ xfs run1.2 = xfs run2.2
      /\ (fun item => (item.1, placement item.2)) <$> dependencies (this run1.2)
         = (fun item => (item.1, placement item.2)) <$> dependencies (this run2.2)
      /\ (forall r,
            run1.1 = Return r ->
            Map_get (locatorHash pkg1) (dependencies (this run1.2))
            = Some {| packageLocator := pkg1;
                      packageLocation := installedLocation r;
                      packageDependencies := ∅ |}
            /\ Map_get (locatorHash pkg2) (dependencies (this run2.2))
               = Some {| packageLocator := pkg2;
                         packageLocation := installedLocation r;
                         packageDependencies := ∅ |})).
Proof.
  intros Hlink Hws run1 run2 placement.
  change run1 with (installPackage process_cwd isVirtual2 sanitizeIdentity pkg1 fetchResult w).
  by apply installPackage_alike.
Qed.

(** * The spec's scenario

    Project root [/proj]; package [pkgA], hard-linked, with the files
    [a.txt] and [includes.dm]; workspace [wsA]. *)

Definition scenario_cwd : PortablePath := "/home/user".

Definition scenario_project : Project :=
  {| cwd := "/proj";
     configuration := {| dmLinker := true |};
     tryWorkspaceByLocator := fun l =>
       if bool_decide (locatorHash l = "wsA")
       then Some {| workspaceCwd := "/proj/packages/wsA" |}
       else None |}.

Definition scenario_opts : LinkOptions := {| project := scenario_project |}.

Definition pkgA : Package :=
  {| locator := {| name := "pkgA"; reference := "npm:1.0.0"; locatorHash := "pkgA" |};
     linkType := HARD |}.

Definition wsA : Package :=
  {| locator := {| name := "wsA"; reference := "workspace:packages/wsA";
                   locatorHash := "wsA" |};
     linkType := SOFT |}.

Definition contentA : fsnode :=
  Dir {[ "a.txt" := File "hello"; "includes.dm" := File "// pkgA" ]}.

Definition fetchedA : FetchResult :=
  {| packageFs := {| getRealPath := "/cache/pkgA.zip";
                     contents := Dir {[ "node_modules" := Dir {[ "pkgA" := contentA ]} ]} |};
     prefixPath := "node_modules/pkgA" |}.

Definition contentW : fsnode := Dir {[ "main.dm" := File "// wsA" ]}.

Definition fetchedW : FetchResult :=
  {| packageFs := {| getRealPath := "/proj/packages/wsA"; contents := contentW |};
     prefixPath := "." |}.

Definition scenario_disk : fsnode :=
  Dir {[ "proj" := Dir {[ "packages" := Dir {[ "wsA" := contentW ]} ]} ]}.

(** The same disk after someone edited the vendored [a.txt] by hand. *)
Definition edited_disk : fsnode :=
  Dir {[ "proj" := Dir {[ "packages" := Dir {[ "wsA" := contentW ]};
                          ".vendor" := Dir {[ "pkgA" := Dir {[ "a.txt" := File "edited" ]} ]} ]} ]}.

Definition scenario_world : World :=
  {| this := new_DmInstaller scenario_opts; xfs := scenario_disk |}.

Definition edited_world : World :=
  {| this := new_DmInstaller scenario_opts; xfs := edited_disk |}.

Definition disabled_world : World :=
  {| this := new_DmInstaller
               {| project := {| cwd := "/proj";
                                configuration := {| dmLinker := false |};
                                tryWorkspaceByLocator := fun _ => None |} |};
     xfs := edited_disk |}.

Definition scenario_isVirtual (l : Locator) : bool := String.prefix "virtual:" (reference l).

Definition scenario_pretty (c : Configuration) (l : Locator) : string :=
  name l +:+ "@" +:+ reference l.

(** A string as JSON writes it: quoted, with the quote, the backslash and
    the control characters escaped. *)
Definition backslash : string := String (ascii_of_N 92) EmptyString.

Definition hex_digit (n : N) : string :=
  String (ascii_of_N (if (n <? 10)%N then 48 + n else 87 + n)%N) EmptyString.

Definition json_escape (c : ascii) : string :=
  let n := N_of_ascii c in
  if (n =? 34)%N then backslash +:+ dq
  else if (n =? 92)%N then backslash +:+ backslash
  else if (n =? 8)%N then backslash +:+ "b"
  else if (n =? 9)%N then backslash +:+ "t"
  else if (n =? 10)%N then backslash +:+ "n"
  else if (n =? 12)%N then backslash +:+ "f"
  else if (n =? 13)%N then backslash +:+ "r"
  else if (n <? 32)%N then backslash +:+ "u00" +:+ hex_digit (n / 16) +:+ hex_digit (n mod 16)
  else String c EmptyString.

Fixpoint json_escape_all (s : string) : string :=
  match s with
  | EmptyString => EmptyString
  | String c s' => json_escape c +:+ json_escape_all s'
  end.

Definition json_quote (s : string) : string := dq +:+ json_escape_all s +:+ dq.

Fixpoint json_properties (data : list (string * string)) : string :=
  match data with
  | [] => EmptyString
  | [(k, v)] => "  " +:+ json_quote k +:+ ": " +:+ json_quote v
  | (k, v) :: data' =>
      "  " +:+ json_quote k +:+ ": " +:+ json_quote v +:+ "," +:+ nl +:+ json_properties data'
  end.

(** [JSON.stringify(data, null, 2)] for an object with string values: the
    properties stand one per line, indented by two spaces and separated by
    commas; the empty object is written without a line break. *)
Definition scenario_json (data : list (string * string)) : string :=
  match data with
  | [] => "{}"
  | _ => "{" +:+ nl +:+ json_properties data +:+ nl +:+ "}"
  end.

Definition scenario_sanitize (identity : string) : Filename := identity.

Definition scenario_pathmap (p : Project) : PortablePath :=
  ppath.join [getVendorPath p; "pathmap.json"].

Definition scenario_include (p : Project) : PortablePath :=
  ppath.join [cwd p; "includes.dm"].

Definition scenario_installPackage : Package -> FetchResult -> M InstallPackageResult :=
  installPackage scenario_cwd scenario_isVirtual scenario_sanitize.

Definition scenario_run : list (Call unit) -> M unit :=
  run scenario_cwd unit scenario_isVirtual scenario_pretty scenario_json scenario_sanitize
      scenario_pathmap scenario_include.

Definition scenario_calls : list (Call unit) :=
  [CallInstallPackage pkgA fetchedA;
   CallInstallPackage wsA fetchedW;
   CallAttachInternalDependencies pkgA [(tt, locator wsA)];
   CallFinalizeInstall].

Definition scenario_end : World := (scenario_run scenario_calls scenario_world).2.

Example scenario_returns : (scenario_run scenario_calls scenario_world).1 = Return tt.
Proof. vm_compute. reflexivity. Qed.

Example scenario_ledger :
  (fun '(key, entry) => (key, packageLocation entry, elements (packageDependencies entry)))
    <$> dependencies (this scenario_end)
  = [("pkgA", "/proj/.vendor/pkgA", ["wsA"]); ("wsA", "/proj/packages/wsA", [])].
Proof. vm_compute. reflexivity. Qed.

Example scenario_pathMap :
  pathMapData scenario_cwd (this scenario_end)
  = [("pkgA", ".vendor/pkgA"); ("wsA", "packages/wsA")].
Proof. vm_compute. reflexivity. Qed.

Example scenario_includes :
  lookup_path ["proj"; "includes.dm"] (xfs scenario_end)
  = Some (File (includesBanner +:+ "#include " +:+ dq +:+ ".vendor/pkgA/includes.dm" +:+ dq +:+ nl)).
Proof. vm_compute. reflexivity. Qed.

Example scenario_vendored :
  lookup_path ["proj"; ".vendor"; "pkgA"; "a.txt"] (xfs scenario_end) = Some (File "hello")
  /\ lookup_path ["proj"; ".vendor"; "wsA"] (xfs scenario_end) = None.
Proof. vm_compute. split; reflexivity. Qed.

Example scenario_json_text :
  scenario_json [] = "{}"
  /\ scenario_json [("pkgA", ".vendor/pkgA"); ("wsA", "packages/wsA")]
     = "{" +:+ nl
       +:+ "  " +:+ dq +:+ "pkgA" +:+ dq +:+ ": " +:+ dq +:+ ".vendor/pkgA" +:+ dq +:+ "," +:+ nl
       +:+ "  " +:+ dq +:+ "wsA" +:+ dq +:+ ": " +:+ dq +:+ "packages/wsA" +:+ dq +:+ nl
       +:+ "}"
  /\ json_quote ("a" +:+ dq +:+ "b" +:+ backslash +:+ nl)
     = dq +:+ "a" +:+ backslash +:+ dq +:+ "b" +:+ backslash +:+ backslash
       +:+ backslash +:+ "n" +:+ dq.
Proof. vm_compute. repeat split; reflexivity. Qed.

(** ** A vendored file edited by hand *)

(** C1, as stated, fails: [pkgA] is hard-linked and no workspace, the call
    copies and returns the vendor path, and yet the destination does not
    equal the source: [a.txt], edited by hand before the call, keeps the
    edited bytes. *)
Lemma installPackage_copy_keeps_edited :
  enabled (this edited_world) = true
  /\ linkType pkgA = HARD
  /\ tryWorkspaceByLocator (project (opts (this edited_world))) pkgA = None
  /\ exists r w',
       scenario_installPackage pkgA fetchedA edited_world = (Return r, w')
       /\ installedLocation r
          = getVendoredPackagePath scenario_sanitize (project (opts (this edited_world))) pkgA
       /\ lookup_path (xfs_segments scenario_cwd (installedLocation r)) (xfs w')
          <> lookup_path (path_segments SEP (prefixPath fetchedA))
                         (contents (packageFs fetchedA))
       /\ lookup_path (xfs_segments scenario_cwd (installedLocation r) ++ ["a.txt"]) (xfs w')
          = Some (File "edited")
       /\ lookup_path (path_segments SEP (prefixPath fetchedA) ++ ["a.txt"])
                      (contents (packageFs fetchedA))
          = Some (File "hello").
Proof.
  split; [reflexivity |]. split; [reflexivity |]. split; [reflexivity |].
  eexists _, _. split; [vm_compute; reflexivity |].
  split; [vm_compute; reflexivity |].
  split; [|split; vm_compute; reflexivity].
  intros Heq. apply (f_equal (fun found => found ≫= lookup_path ["a.txt"])) in Heq.
  vm_compute in Heq. discriminate Heq.
Qed.

(** ** The theorems at work in the scenario *)

Lemma installPackage_copy_scenario :
  enabled (this scenario_world) = true
  /\ exists w',
       scenario_installPackage pkgA fetchedA scenario_world
       = (Return {| installedLocation := "/proj/.vendor/pkgA"; buildDirective := None |}, w')
       /\ lookup_path ["proj"; ".vendor"; "pkgA"] (xfs w') = Some contentA.
Proof.
  split; [reflexivity |].
  destruct (installPackage_copy scenario_cwd scenario_isVirtual scenario_sanitize
              pkgA fetchedA scenario_world eq_refl) as (_ & _ & Hcopy).
  destruct (Hcopy eq_refl contentA
              (Dir {[ "proj" := Dir {[ "packages" := Dir {[ "wsA" := contentW ]};
                                       ".vendor" := Dir {[ "pkgA" := Dir ∅ ]} ]} ]})
              eq_refl)
    as (w' & Hrun & _ & _ & Hfresh); [vm_compute; reflexivity |].
  exists w'. split; [exact Hrun |].
  exact (Hfresh _ eq_refl eq_refl).
Defined.

Lemma installPackage_reference_scenario :
  Boolean (tryWorkspaceByLocator (project (opts (this scenario_world))) wsA) = true
  /\ exists w',
       scenario_installPackage wsA fetchedW scenario_world
       = (Return {| installedLocation := "/proj/packages/wsA"; buildDirective := None |}, w')
       /\ xfs w' = xfs scenario_world.
Proof.
  split; [reflexivity |].
  exact (proj2 (installPackage_reference scenario_cwd scenario_isVirtual scenario_sanitize
                  wsA fetchedW scenario_world (or_intror eq_refl)) eq_refl).
Defined.

Lemma pathMap_round_trip_scenario :
  isAbsolute scenario_cwd = true
  /\ placements_ok scenario_cwd unit scenario_sanitize scenario_opts scenario_calls = true
  /\ scenario_run scenario_calls scenario_world = (Return tt, scenario_end)
  /\ forall identity entry,
       Map_get identity (dependencies (this scenario_end)) = Some entry ->
       exists relativePath,
         Map_get identity (pathMapData scenario_cwd (this scenario_end)) = Some relativePath
         /\ ppath.resolve scenario_cwd [cwd scenario_project; relativePath]
            = packageLocation entry.
Proof.
  assert (scenario_run scenario_calls scenario_world = (Return tt, scenario_end)) as Hrun
    by (vm_compute; reflexivity).
  split; [reflexivity |]. split; [vm_compute; reflexivity |]. split; [exact Hrun |].
  exact (proj1 (proj2
           (pathMap_round_trip scenario_cwd unit scenario_isVirtual scenario_pretty
              scenario_json scenario_sanitize scenario_pathmap scenario_include
              scenario_opts scenario_calls scenario_disk scenario_end
              eq_refl eq_refl Hrun))).
Defined.

Lemma finalizeInstall_disabled_scenario :
  enabled (this disabled_world) = false
  /\ exists w',
       finalizeInstall scenario_cwd scenario_json scenario_pathmap scenario_include
         disabled_world = (Return [], w')
       /\ lookup_path ["proj"; ".vendor"] (xfs w') = None.
Proof.
  split; [reflexivity |].
  destruct (finalizeInstall_disabled scenario_cwd scenario_json scenario_pathmap
              scenario_include disabled_world eq_refl)
    as (w' & Hrun & _ & Hgone & _).
  exists w'. split; [exact Hrun | exact Hgone].
Defined.

(** [pkgA] placed, its dependency on [wsA] attached, and [pkgA] placed
    again. *)
Definition attached_world : World :=
  (scenario_run [CallInstallPackage pkgA fetchedA;
                 CallInstallPackage wsA fetchedW;
                 CallAttachInternalDependencies pkgA [(tt, locator wsA)]]
     scenario_world).2.

Lemma installPackage_again_scenario :
  let old := {| packageLocator := pkgA;
                packageLocation := "/proj/.vendor/pkgA";
                packageDependencies := {[ "wsA" ]} |} in
  let r := {| installedLocation := "/proj/.vendor/pkgA"; buildDirective := None |} in
  let w' := (scenario_installPackage pkgA fetchedA attached_world).2 in
  Map_get (locatorHash pkgA) (dependencies (this attached_world)) = Some old
  /\ scenario_installPackage pkgA fetchedA attached_world = (Return r, w')
  /\ Map_get (locatorHash pkgA) (dependencies (this w'))
     = Some {| packageLocator := pkgA;
               packageLocation := installedLocation r;
               packageDependencies := ∅ |}.
Proof.
  intros old r w'.
  assert (Map_get (locatorHash pkgA) (dependencies (this attached_world)) = Some old) as Hold
    by (vm_compute; reflexivity).
  assert (scenario_installPackage pkgA fetchedA attached_world = (Return r, w')) as Hrun
    by (vm_compute; reflexivity).
  split; [exact Hold |]. split; [exact Hrun |].
  exact (proj1 (installPackage_again_resets_dependencies scenario_cwd scenario_isVirtual
                  scenario_sanitize pkgA fetchedA attached_world w' r old Hold Hrun)).
Defined.

(** The world after [pkgA] has been placed once. *)
Definition placed_world : World := (scenario_installPackage pkgA fetchedA scenario_world).2.

Lemma installPackage_twice_scenario :
  let r := {| installedLocation := "/proj/.vendor/pkgA"; buildDirective := None |} in
  scenario_installPackage pkgA fetchedA scenario_world = (Return r, placed_world)
  /\ scenario_installPackage pkgA fetchedA placed_world = (Return r, placed_world)
  /\ lookup_path ["proj"; ".vendor"; "pkgA"; "a.txt"]
       (xfs (scenario_installPackage pkgA fetchedA edited_world).2)
     = Some (File "edited").
Proof.
  intros r.
  assert (scenario_installPackage pkgA fetchedA scenario_world = (Return r, placed_world))
    as Hfirst by (vm_compute; reflexivity).
  split; [exact Hfirst |]. split.
  - exact (proj1 (proj2 (installPackage_twice scenario_cwd scenario_isVirtual
                           scenario_sanitize pkgA fetchedA scenario_world))
             r placed_world Hfirst).
  - exact (proj1 (installPackage_twice scenario_cwd scenario_isVirtual scenario_sanitize
                    pkgA fetchedA edited_world)
             ["proj"; ".vendor"; "pkgA"; "a.txt"] "edited" eq_refl).
Defined.

Lemma installPackage_feature_flag_scenario :
  enabled (this disabled_world) = false
  /\ scenario_installPackage pkgA fetchedA disabled_world
     = (Throw (UsageError featureDisabledMessage), disabled_world).
Proof.
  split; [reflexivity |].
  exact (proj1 (proj1 (installPackage_feature_flag scenario_cwd scenario_isVirtual
                         scenario_sanitize pkgA fetchedA disabled_world) eq_refl)).
Defined.

Lemma attachInternalDependencies_scenario :
  Map_get (locatorHash pkgA) (dependencies (this scenario_world)) = None
  /\ (attachInternalDependencies unit scenario_pretty pkgA [(tt, locator wsA)] scenario_world).1
     = Throw (JsError (unregisteredMessage scenario_pretty (this scenario_world) pkgA)).
Proof.
  split; [reflexivity |].
  exact (proj2 (proj1 (attachInternalDependencies_spec unit scenario_pretty pkgA
                         [(tt, locator wsA)] scenario_world)) eq_refl).
Defined.

(** ** The further properties at work in the scenario *)

(** A disk on which a file stands where the vendor root should be, and one
    on which a file stands where the vendor directory of [pkgA] should
    be. *)
Definition blocked_world : World :=
  {| this := new_DmInstaller scenario_opts;
     xfs := Dir {[ "proj" := Dir {[ ".vendor" := File "not a directory" ]} ]} |}.

Definition occupied_world : World :=
  {| this := new_DmInstaller scenario_opts;
     xfs := Dir {[ "proj" := Dir {[ ".vendor" := Dir {[ "pkgA" := File "taken" ]} ]} ]} |}.

(** Fetched content that has nothing at its prefix path. *)
Definition fetchedNothing : FetchResult :=
  {| packageFs := packageFs fetchedA; prefixPath := "node_modules/other" |}.

(** The two packages placed, nothing attached. *)
Definition both_world : World :=
  (scenario_run [CallInstallPackage pkgA fetchedA; CallInstallPackage wsA fetchedW]
     scenario_world).2.

Lemma installPackage_throw_scenario :
  let w' := (scenario_installPackage pkgA fetchedA blocked_world).2 in
  scenario_installPackage pkgA fetchedA blocked_world
  = (Throw (FsError ENOTDIR "/proj/.vendor/pkgA"), w')
  /\ this w' = this blocked_world.
Proof.
  intros w'.
  assert (scenario_installPackage pkgA fetchedA blocked_world
          = (Throw (FsError ENOTDIR "/proj/.vendor/pkgA"), w')) as Hthrow
    by (vm_compute; reflexivity).
  split; [exact Hthrow |].
  exact (proj1 (installPackage_throw_keeps_ledger scenario_cwd scenario_isVirtual
                  scenario_sanitize pkgA fetchedA blocked_world w' _ Hthrow)).
Defined.

Lemma installPackage_vendor_path_is_file_scenario :
  lookup_path ["proj"; ".vendor"; "pkgA"] (xfs occupied_world) = Some (File "taken")
  /\ scenario_installPackage pkgA fetchedA occupied_world
     = (Throw (FsError EEXIST "/proj/.vendor/pkgA"), occupied_world).
Proof.
  split; [reflexivity |].
  exact (installPackage_vendor_path_is_file scenario_cwd scenario_isVirtual
           scenario_sanitize pkgA fetchedA occupied_world "taken" eq_refl eq_refl eq_refl).
Defined.

Lemma installPackage_missing_content_scenario :
  lookup_path ["node_modules"; "other"] (contents (packageFs fetchedNothing)) = None
  /\ exists w',
       scenario_installPackage pkgA fetchedNothing scenario_world
       = (Throw (FsError ENOENT "node_modules/other"), w')
       /\ this w' = this scenario_world
       /\ lookup_path ["proj"; ".vendor"; "pkgA"] (xfs w') = Some (Dir ∅).
Proof.
  split; [reflexivity |].
  destruct (installPackage_missing_content scenario_cwd scenario_isVirtual scenario_sanitize
              pkgA fetchedNothing scenario_world
              (Dir {[ "proj" := Dir {[ "packages" := Dir {[ "wsA" := contentW ]};
                                       ".vendor" := Dir {[ "pkgA" := Dir ∅ ]} ]} ]})
              eq_refl eq_refl eq_refl)
    as (Hthrow & _ & _); [vm_compute; reflexivity |].
  eexists. split; [exact Hthrow |]. split; reflexivity.
Defined.

Lemma installPackage_records_scenario :
  let r := {| installedLocation := "/proj/packages/wsA"; buildDirective := None |} in
  scenario_installPackage wsA fetchedW placed_world = (Return r, both_world)
  /\ Map_get "pkgA" (dependencies (this both_world))
     = Map_get "pkgA" (dependencies (this placed_world))
  /\ (dependencies (this both_world)).*1 = ["pkgA"; "wsA"].
Proof.
  intros r.
  assert (scenario_installPackage wsA fetchedW placed_world = (Return r, both_world)) as Hrun
    by (vm_compute; reflexivity).
  split; [exact Hrun |].
  destruct (installPackage_records scenario_cwd scenario_isVirtual scenario_sanitize
              wsA fetchedW placed_world both_world r Hrun) as (_ & _ & Hothers & Hkeys).
  split; [apply Hothers; discriminate | exact Hkeys].
Defined.

Lemma attachInternalDependencies_set_scenario :
  let deps1 := [(tt, locator wsA); (tt, locator pkgA); (tt, locator wsA)] in
  let deps2 := [(tt, locator pkgA); (tt, locator wsA)] in
  (forall identity,
     identity ∈ ((fun d : unit * Locator => locatorHash d.2) <$> deps1)
     <-> identity ∈ ((fun d : unit * Locator => locatorHash d.2) <$> deps2))
  /\ attachInternalDependencies unit scenario_pretty pkgA deps1 both_world
     = attachInternalDependencies unit scenario_pretty pkgA deps2 both_world.
Proof.
  intros deps1 deps2.
  assert (forall identity,
            identity ∈ ((fun d : unit * Locator => locatorHash d.2) <$> deps1)
            <-> identity ∈ ((fun d : unit * Locator => locatorHash d.2) <$> deps2)) as Hsame.
  { intros identity. unfold deps1, deps2. csimpl.
    rewrite !elem_of_cons, elem_of_nil. tauto. }
  split; [exact Hsame |].
  exact (attachInternalDependencies_set unit scenario_pretty pkgA deps1 deps2 both_world Hsame).
Defined.

Lemma attachInternalDependencies_comm_scenario :
  is_Some (Map_get (locatorHash pkgA) (dependencies (this both_world)))
  /\ is_Some (Map_get (locatorHash wsA) (dependencies (this both_world)))
  /\ (attachInternalDependencies unit scenario_pretty pkgA [(tt, locator wsA)];;
      attachInternalDependencies unit scenario_pretty wsA [(tt, locator pkgA)]) both_world
     = (attachInternalDependencies unit scenario_pretty wsA [(tt, locator pkgA)];;
        attachInternalDependencies unit scenario_pretty pkgA [(tt, locator wsA)]) both_world.
Proof.
  assert (is_Some (Map_get (locatorHash pkgA) (dependencies (this both_world)))) as HA
    by (eexists; vm_compute; reflexivity).
  assert (is_Some (Map_get (locatorHash wsA) (dependencies (this both_world)))) as HW
    by (eexists; vm_compute; reflexivity).
  split; [exact HA |]. split; [exact HW |].
  exact (attachInternalDependencies_comm unit scenario_pretty pkgA wsA
           [(tt, locator wsA)] [(tt, locator pkgA)] both_world HA HW).
Defined.

Lemma run_keys_scenario :
  let calls := scenario_calls ++ [CallInstallPackage pkgA fetchedA] in
  let w' := (scenario_run calls scenario_world).2 in
  scenario_run calls scenario_world = (Return tt, w')
  /\ (dependencies (this w')).*1 = ["pkgA"; "wsA"].
Proof.
  intros calls w'.
  assert (scenario_run calls scenario_world = (Return tt, w')) as Hrun
    by (vm_compute; reflexivity).
  split; [exact Hrun |].
  exact (run_keys scenario_cwd unit scenario_isVirtual scenario_pretty scenario_json
           scenario_sanitize scenario_pathmap scenario_include calls
           scenario_world w' Hrun).
Defined.

Lemma run_dependencies_attached_scenario :
  let entry := {| packageLocator := pkgA;
                  packageLocation := "/proj/.vendor/pkgA";
                  packageDependencies := {[ "wsA" ]} |} in
  Map_get "pkgA" (dependencies (this scenario_end)) = Some entry
  /\ "wsA" ∈ packageDependencies entry
  /\ exists locator deps dependency,
       CallAttachInternalDependencies locator deps ∈ scenario_calls
       /\ locatorHash locator = "pkgA"
       /\ dependency ∈ deps
       /\ locatorHash dependency.2 = "wsA".
Proof.
  intros entry.
  assert (Map_get "pkgA" (dependencies (this scenario_end)) = Some entry) as Hget
    by (vm_compute; reflexivity).
  assert ("wsA" ∈ packageDependencies entry) as Hin.
  { unfold entry. cbn [packageDependencies]. apply elem_of_singleton. reflexivity. }
  split; [exact Hget |]. split; [exact Hin |].
  exact (run_dependencies_attached scenario_cwd unit scenario_isVirtual scenario_pretty
           scenario_json scenario_sanitize scenario_pathmap scenario_include
           scenario_opts scenario_calls scenario_disk "pkgA" entry "wsA" Hget Hin).
Defined.

Lemma run_disabled_scenario :
  let o := opts (this disabled_world) in
  let w' := (scenario_run (CallFinalizeInstall :: scenario_calls) disabled_world).2 in
  dmLinker (configuration (project o)) = false
  /\ this w' = new_DmInstaller o
  /\ (forall q content,
        lookup_path q (xfs w') = Some (File content) ->
        lookup_path q edited_disk = Some (File content)).
Proof.
  intros o w'. split; [reflexivity |].
  destruct (run_disabled scenario_cwd unit scenario_isVirtual scenario_pretty scenario_json
              scenario_sanitize scenario_pathmap scenario_include
              o (CallFinalizeInstall :: scenario_calls) edited_disk eq_refl)
    as (Hthis & Hfiles & _).
  split; [exact Hthis | exact Hfiles].
Defined.

Lemma writePathMap_no_mkdir_scenario :
  lookup_path ["proj"; ".vendor"] (xfs scenario_world) = None
  /\ exists code,
       writePathMap scenario_cwd scenario_json scenario_pathmap scenario_world
       = (Throw (FsError code "/proj/.vendor/pathmap.json"), scenario_world)
       /\ (code = ENOENT \/ code = ENOTDIR).
Proof.
  split; [reflexivity |].
  exact (proj2 (writePathMap_no_mkdir scenario_cwd scenario_json scenario_pathmap
                  scenario_world)
           ["proj"; ".vendor"] "pathmap.json" eq_refl eq_refl).
Defined.

Lemma finalizeInstall_enabled_scenario :
  enabled (this attached_world) = true
  /\ finalizeInstall scenario_cwd scenario_json scenario_pathmap scenario_include
       attached_world = (Return [], scenario_end)
  /\ lookup_path ["proj"; ".vendor"; "pathmap.json"] (xfs scenario_end)
     = Some (File ("{" +:+ nl
                   +:+ "  " +:+ dq +:+ "pkgA" +:+ dq +:+ ": "
                   +:+ dq +:+ ".vendor/pkgA" +:+ dq +:+ "," +:+ nl
                   +:+ "  " +:+ dq +:+ "wsA" +:+ dq +:+ ": "
                   +:+ dq +:+ "packages/wsA" +:+ dq +:+ nl
                   +:+ "}" +:+ nl))
  /\ lookup_path ["proj"; "includes.dm"] (xfs scenario_end)
     = Some (File (includesBanner
                   +:+ "#include " +:+ dq +:+ ".vendor/pkgA/includes.dm" +:+ dq +:+ nl)).
Proof.
  assert (finalizeInstall scenario_cwd scenario_json scenario_pathmap scenario_include
            attached_world = (Return [], scenario_end)) as Hrun
    by (vm_compute; reflexivity).
  split; [reflexivity |]. split; [exact Hrun |].
  destruct (finalizeInstall_enabled scenario_cwd scenario_json scenario_pathmap
              scenario_include attached_world scenario_end [] eq_refl Hrun)
    as (_ & _ & Hmap & Hinclude).
  split.
  - etrans; [exact Hmap |]. vm_compute. reflexivity.
  - etrans; [apply Hinclude; intros Heq; vm_compute in Heq; discriminate Heq |].
    vm_compute. reflexivity.
Defined.

Lemma finalizeInstall_keeps_other_files_scenario :
  let q := ["proj"; "packages"; "wsA"; "main.dm"] in
  enabled (this attached_world) = true
  /\ lookup_path q (xfs attached_world) = Some (File "// wsA")
  /\ lookup_path q
       (xfs (finalizeInstall scenario_cwd scenario_json scenario_pathmap scenario_include
               attached_world).2)
     = Some (File "// wsA").
Proof.
  intros q.
  assert (lookup_path q (xfs attached_world) = Some (File "// wsA")) as Hq
    by (vm_compute; reflexivity).
  split; [reflexivity |]. split; [exact Hq |].
  apply (finalizeInstall_keeps_other_files scenario_cwd scenario_json scenario_pathmap
           scenario_include attached_world q "// wsA" eq_refl); [| | exact Hq].
  - intros Heq. vm_compute in Heq. discriminate Heq.
  - intros Heq. vm_compute in Heq. discriminate Heq.
Defined.

Lemma finalizeInstall_throws_scenario :
  let w' := (finalizeInstall scenario_cwd scenario_json scenario_pathmap scenario_include
               scenario_world).2 in
  enabled (this scenario_world) = true
  /\ finalizeInstall scenario_cwd scenario_json scenario_pathmap scenario_include scenario_world
     = (Throw (FsError ENOENT "/proj/.vendor/pathmap.json"), w')
  /\ this w' = this scenario_world.
Proof.
  intros w'.
  assert (finalizeInstall scenario_cwd scenario_json scenario_pathmap scenario_include
            scenario_world
          = (Throw (FsError ENOENT "/proj/.vendor/pathmap.json"), w')) as Hthrow
    by (vm_compute; reflexivity).
  split; [reflexivity |]. split; [exact Hthrow |].
  exact (proj1 (finalizeInstall_throws scenario_cwd scenario_json scenario_pathmap
                  scenario_include scenario_world w' _ eq_refl Hthrow)).
Defined.

(** Four packages referenced in place, with the identities [b], [2], [a]
    and [1], placed in that order. *)
Definition referenced (identity : string) : Package :=
  {| locator := {| name := identity; reference := "portal:../" +:+ identity;
                   locatorHash := identity |};
     linkType := SOFT |}.

Definition numbered_world : World :=
  (scenario_run [CallInstallPackage (referenced "b") fetchedW;
                 CallInstallPackage (referenced "2") fetchedW;
                 CallInstallPackage (referenced "a") fetchedW;
                 CallInstallPackage (referenced "1") fetchedW]
     scenario_world).2.

Lemma pathMapData_ledger_keys_scenario :
  let keys := (pathMapData scenario_cwd (this numbered_world)).*1 in
  (dependencies (this numbered_world)).*1 = ["b"; "2"; "a"; "1"]
  /\ NoDup (dependencies (this numbered_world)).*1
  /\ keys = ["1"; "2"; "b"; "a"]
  /\ keys ≡ₚ ["b"; "2"; "a"; "1"]
  /\ StronglySorted listed_in_order keys
  /\ filter (fun key => array_index key = None) keys = ["b"; "a"].
Proof.
  intros keys.
  assert (NoDup (dependencies (this numbered_world)).*1) as Hnodup.
  { apply (bool_decide_unpack _). vm_compute. exact I. }
  split; [vm_compute; reflexivity |]. split; [exact Hnodup |].
  split; [vm_compute; reflexivity |].
  destruct (pathMapData_ledger_keys scenario_cwd (this numbered_world) Hnodup)
    as (Hperm & Hsorted & Hnames & _).
  split; [exact Hperm |]. split; [exact Hsorted |]. exact Hnames.
Defined.

(** A virtual instance of [pkgA]: the same package but for its reference. *)
Definition virtualA : Package :=
  {| locator := {| name := "pkgA"; reference := "virtual:6f2a91#npm:1.0.0";
                   locatorHash := "pkgA" |};
     linkType := HARD |}.

Lemma installPackage_ignores_virtual_scenario :
  let run1 := scenario_installPackage virtualA fetchedA scenario_world in
  let run2 := scenario_installPackage pkgA fetchedA scenario_world in
  scenario_isVirtual virtualA = true
  /\ scenario_isVirtual pkgA = false
  /\ isHardLink (this scenario_world) virtualA = isHardLink (this scenario_world) pkgA
  /\ run1.1 = Return {| installedLocation := "/proj/.vendor/pkgA"; buildDirective := None |}
  /\ run1.1 = run2.1
  /\ xfs run1.2 = xfs run2.2.
Proof.
  intros run1 run2.
  destruct (installPackage_ignores_virtual scenario_cwd scenario_isVirtual scenario_isVirtual
              scenario_sanitize virtualA pkgA fetchedA scenario_world eq_refl eq_refl)
    as (Hdecision & _ & Hsame).
  destruct (Hsame eq_refl) as (Hresult & Hdisk & _).
  split; [reflexivity |]. split; [reflexivity |]. split; [exact Hdecision |].
  split; [vm_compute; reflexivity |]. split; [exact Hresult | exact Hdisk].
Defined.

(** An include file in a directory that is not there yet. *)
Definition generated_include (p : Project) : PortablePath :=
  ppath.join [cwd p; "generated"; "includes.dm"].

Lemma writeIncludes_makes_directory_scenario :
  let w' := (writeIncludes scenario_cwd generated_include scenario_world).2 in
  lookup_path ["proj"; "generated"] (xfs scenario_world) = None
  /\ writeIncludes scenario_cwd generated_include scenario_world = (Return tt, w')
  /\ stat ["proj"; "generated"] (xfs w') = Some IsDir.
Proof.
  intros w'.
  assert (writeIncludes scenario_cwd generated_include scenario_world = (Return tt, w'))
    as Hrun by (vm_compute; reflexivity).
  split; [reflexivity |]. split; [exact Hrun |].
  exact (proj1 (writeIncludes_makes_directory scenario_cwd generated_include scenario_world)
           w' Hrun).
Defined.
